(** * Art-Link: slide controller, page chrome and gallery lightbox

    A shallow embedding of [js/main.js] and [js/gallery.js].  The page
    (DOM plus the variables the scripts close over) is an explicit state;
    every JavaScript function is a computation in a state monad whose
    completions are either normal or an uncaught exception.  Mutations made
    before an exception is thrown stay in the state, as in JavaScript. *)

From stdpp Require Import gmap strings list fin_maps numbers.
From Stdlib Require Import QArith.

Close Scope Q_scope.

(** ** Completions and the state monad of the scripts *)

Inductive js_error : Set :=
  | TypeError.   (* property access on null or undefined *)

Inductive completion (A : Type) : Type :=
  | Normal (a : A)
  | Throw (e : js_error).
Arguments Normal {A} a.
Arguments Throw {A} e.

Definition JS (S A : Type) : Type := S → completion A * S.

Global Instance JS_ret {S} : MRet (JS S) := λ A a s, (Normal a, s).
Global Instance JS_bind {S} : MBind (JS S) := λ A B f m s,
  match m s with
  | (Normal a, s') => f a s'
  | (Throw e, s') => (Throw e, s')
  end.

Definition get {S} : JS S S := λ s, (Normal s, s).
Definition modify {S} (f : S → S) : JS S unit := λ s, (Normal tt, f s).
Definition throw {S A} (e : js_error) : JS S A := λ s, (Throw e, s).

(** The state a computation leaves behind, and how it completed. *)
Definition exec {S A} (m : JS S A) (s : S) : S := (m s).2.
Definition outcome {S A} (m : JS S A) (s : S) : completion A := (m s).1.

(** [m] called [n] times in a row; an exception ends the run. *)
Fixpoint times {S} (n : nat) (m : JS S unit) : JS S unit :=
  match n with
  | O => mret tt
  | S k => m ;; times k m
  end.

(** ** JavaScript numbers as far as the scripts use them

    [index] only ever holds an integer or, after a remainder by zero, NaN. *)

Inductive jsnum : Set :=
  | Num (z : Z)
  | NaN.

Global Instance jsnum_eq_dec : EqDecision jsnum.
Proof. solve_decision. Defined.

Definition js_add (a : jsnum) (k : Z) : jsnum :=
  match a with Num z => Num (z + k) | NaN => NaN end.

(** [a % n]: the remainder takes the sign of the dividend; [% 0] is NaN. *)
Definition js_rem (a : jsnum) (n : Z) : jsnum :=
  match a with
  | Num z => if decide (n = 0%Z) then NaN else Num (Z.rem z n)
  | NaN => NaN
  end.

(** ** Events and listeners *)

Inductive ev_type : Set := click | mouseenter | mouseleave | load | scroll.

Global Instance ev_type_eq_dec : EqDecision ev_type.
Proof. solve_decision. Defined.

(** [addEventListener] on a listener list with functions of type [F]: a
    listener already registered for the same event type with the same
    function object is not added again.  [fresh] says the function object
    was created for this call, so it cannot be registered yet. *)
Definition add_listener {F} `{EqDecision F} (fresh : bool) (t : ev_type)
    (f : F) (ls : list (ev_type * F)) : list (ev_type * F) :=
  if negb fresh && bool_decide ((t, f) ∈ ls) then ls else ls ++ [(t, f)].

(** Dispatching an event: the browser runs the listeners registered for the
    event type, in registration order, from the list as it stands when the
    event is dispatched.  An exception in a listener is reported and does
    not stop the others; [run_all] returns the reports. *)
Definition registered {F} (t : ev_type) (ls : list (ev_type * F)) : list F :=
  snd <$> filter (λ l, l.1 = t) ls.

Fixpoint run_all {S F} (call : F → JS S unit) (fs : list F) (s : S)
    : S * list js_error :=
  match fs with
  | [] => (s, [])
  | f :: fs' =>
      let '(c, s') := call f s in
      let '(s'', errs) := run_all call fs' s' in
      (s'', match c with Normal _ => errs | Throw e => e :: errs end)
  end.

(** ** main.js *)

Module Main.

(** The function values main.js hands to [addEventListener] and
    [setInterval]. *)
Inductive fn : Set :=
  | fn_load            (* arrow function, main.js:65 *)
  | fn_scroll          (* arrow function, main.js:79 *)
  | fn_next_click      (* arrow function, main.js:54 *)
  | fn_prev_click      (* arrow function, main.js:55 *)
  | fn_menu_click      (* arrow function, main.js:90 *)
  | fn_goNext
  | fn_startAutoSlide
  | fn_stopAutoSlide.

Global Instance fn_eq_dec : EqDecision fn.
Proof. solve_decision. Defined.

(** Evaluating an arrow function yields a new function object each time;
    a declared function is one object for the life of the page. *)
Definition declared (f : fn) : bool :=
  match f with
  | fn_goNext | fn_startAutoSlide | fn_stopAutoSlide => true
  | _ => false
  end.

Record element : Type := mkElement {
  classList : gset string;
  listeners : list (ev_type * fn);
  transform : option Z;   (* style.transform = translateX(n%), unset = None *)
  img : bool              (* querySelector("img") finds a descendant *)
}.

Definition set_classList (c : gset string) (e : element) : element :=
  {| classList := c; listeners := listeners e;
     transform := transform e; img := img e |}.
Definition set_listeners (l : list (ev_type * fn)) (e : element) : element :=
  {| classList := classList e; listeners := l;
     transform := transform e; img := img e |}.
Definition set_transform (t : option Z) (e : element) : element :=
  {| classList := classList e; listeners := listeners e;
     transform := t; img := img e |}.

Definition classList_add (c : string) (e : element) : element :=
  set_classList ({[ c ]} ∪ classList e) e.
Definition classList_remove (c : string) (e : element) : element :=
  set_classList (classList e ∖ {[ c ]}) e.
Definition classList_toggle (c : string) (e : element) : element :=
  if decide (c ∈ classList e) then classList_remove c e else classList_add c e.

Definition addEventListener (t : ev_type) (f : fn) (e : element) : element :=
  set_listeners (add_listener (negb (declared f)) t f (listeners e)) e.


Definition AUTO_SLIDE_INTERVAL_MS : Z := 7000.

Record timer : Set := mkTimer { callback : fn; interval : Z }.

(** The page as main.js sees it.  [slides], [nextBtn], [prevBtn],
    [menuToggle] and [navLinks] are the results of the queries the script
    makes when it starts; [navbar] is what [querySelector(".navbar")] finds;
    [index] and [autoSlideId] are the variables of the closure
    ([None] stands for [null]). *)
Record page : Type := mkPage {
  slides : list element;
  nextBtn : option element;
  prevBtn : option element;
  body : element;
  navbar : option element;
  menuToggle : option element;
  navLinks : option element;
  window_listeners : list (ev_type * fn);
  scrollY : Q;
  gsap : bool;               (* window.gsap is defined *)
  tweens : list nat;         (* slides whose image gsap.fromTo was called on *)
  timers : gmap nat timer;   (* active interval timers by id *)
  timer_seq : nat;           (* the id the next setInterval returns *)
  index : jsnum;
  autoSlideId : option nat
}.

Definition set_slides (v : list element) (p : page) : page :=
  {| slides := v; nextBtn := nextBtn p; prevBtn := prevBtn p; body := body p;
     navbar := navbar p; menuToggle := menuToggle p; navLinks := navLinks p;
     window_listeners := window_listeners p; scrollY := scrollY p;
     gsap := gsap p; tweens := tweens p; timers := timers p;
     timer_seq := timer_seq p; index := index p;
     autoSlideId := autoSlideId p |}.
Definition set_nextBtn (v : option element) (p : page) : page :=
  {| slides := slides p; nextBtn := v; prevBtn := prevBtn p; body := body p;
     navbar := navbar p; menuToggle := menuToggle p; navLinks := navLinks p;
     window_listeners := window_listeners p; scrollY := scrollY p;
     gsap := gsap p; tweens := tweens p; timers := timers p;
     timer_seq := timer_seq p; index := index p;
     autoSlideId := autoSlideId p |}.
Definition set_prevBtn (v : option element) (p : page) : page :=
  {| slides := slides p; nextBtn := nextBtn p; prevBtn := v; body := body p;
     navbar := navbar p; menuToggle := menuToggle p; navLinks := navLinks p;
     window_listeners := window_listeners p; scrollY := scrollY p;
     gsap := gsap p; tweens := tweens p; timers := timers p;
     timer_seq := timer_seq p; index := index p;
     autoSlideId := autoSlideId p |}.
Definition set_body (v : element) (p : page) : page :=
  {| slides := slides p; nextBtn := nextBtn p; prevBtn := prevBtn p;
     body := v; navbar := navbar p; menuToggle := menuToggle p;
     navLinks := navLinks p; window_listeners := window_listeners p;
     scrollY := scrollY p; gsap := gsap p; tweens := tweens p;
     timers := timers p; timer_seq := timer_seq p; index := index p;
     autoSlideId := autoSlideId p |}.
Definition set_navbar (v : option element) (p : page) : page :=
  {| slides := slides p; nextBtn := nextBtn p; prevBtn := prevBtn p;
     body := body p; navbar := v; menuToggle := menuToggle p;
     navLinks := navLinks p; window_listeners := window_listeners p;
     scrollY := scrollY p; gsap := gsap p; tweens := tweens p;
     timers := timers p; timer_seq := timer_seq p; index := index p;
     autoSlideId := autoSlideId p |}.
Definition set_menuToggle (v : option element) (p : page) : page :=
  {| slides := slides p; nextBtn := nextBtn p; prevBtn := prevBtn p;
     body := body p; navbar := navbar p; menuToggle := v;
     navLinks := navLinks p; window_listeners := window_listeners p;
     scrollY := scrollY p; gsap := gsap p; tweens := tweens p;
     timers := timers p; timer_seq := timer_seq p; index := index p;
     autoSlideId := autoSlideId p |}.
Definition set_navLinks (v : option element) (p : page) : page :=
  {| slides := slides p; nextBtn := nextBtn p; prevBtn := prevBtn p;
     body := body p; navbar := navbar p; menuToggle := menuToggle p;
     navLinks := v; window_listeners := window_listeners p;
     scrollY := scrollY p; gsap := gsap p; tweens := tweens p;
     timers := timers p; timer_seq := timer_seq p; index := index p;
     autoSlideId := autoSlideId p |}.
Definition set_window_listeners (v : list (ev_type * fn)) (p : page) : page :=
  {| slides := slides p; nextBtn := nextBtn p; prevBtn := prevBtn p;
     body := body p; navbar := navbar p; menuToggle := menuToggle p;
     navLinks := navLinks p; window_listeners := v; scrollY := scrollY p;
     gsap := gsap p; tweens := tweens p; timers := timers p;
     timer_seq := timer_seq p; index := index p;
     autoSlideId := autoSlideId p |}.
Definition set_scrollY (v : Q) (p : page) : page :=
  {| slides := slides p; nextBtn := nextBtn p; prevBtn := prevBtn p;
     body := body p; navbar := navbar p; menuToggle := menuToggle p;
     navLinks := navLinks p; window_listeners := window_listeners p;
     scrollY := v; gsap := gsap p; tweens := tweens p; timers := timers p;
     timer_seq := timer_seq p; index := index p;
     autoSlideId := autoSlideId p |}.
Definition set_tweens (v : list nat) (p : page) : page :=
  {| slides := slides p; nextBtn := nextBtn p; prevBtn := prevBtn p;
     body := body p; navbar := navbar p; menuToggle := menuToggle p;
     navLinks := navLinks p; window_listeners := window_listeners p;
     scrollY := scrollY p; gsap := gsap p; tweens := v; timers := timers p;
     timer_seq := timer_seq p; index := index p;
     autoSlideId := autoSlideId p |}.
Definition set_timers (v : gmap nat timer) (p : page) : page :=
  {| slides := slides p; nextBtn := nextBtn p; prevBtn := prevBtn p;
     body := body p; navbar := navbar p; menuToggle := menuToggle p;
     navLinks := navLinks p; window_listeners := window_listeners p;
     scrollY := scrollY p; gsap := gsap p; tweens := tweens p; timers := v;
     timer_seq := timer_seq p; index := index p;
     autoSlideId := autoSlideId p |}.
Definition set_timer_seq (v : nat) (p : page) : page :=
  {| slides := slides p; nextBtn := nextBtn p; prevBtn := prevBtn p;
     body := body p; navbar := navbar p; menuToggle := menuToggle p;
     navLinks := navLinks p; window_listeners := window_listeners p;
     scrollY := scrollY p; gsap := gsap p; tweens := tweens p;
     timers := timers p; timer_seq := v; index := index p;
     autoSlideId := autoSlideId p |}.
Definition set_index (v : jsnum) (p : page) : page :=
  {| slides := slides p; nextBtn := nextBtn p; prevBtn := prevBtn p;
     body := body p; navbar := navbar p; menuToggle := menuToggle p;
     navLinks := navLinks p; window_listeners := window_listeners p;
     scrollY := scrollY p; gsap := gsap p; tweens := tweens p;
     timers := timers p; timer_seq := timer_seq p; index := v;
     autoSlideId := autoSlideId p |}.
Definition set_autoSlideId (v : option nat) (p : page) : page :=
  {| slides := slides p; nextBtn := nextBtn p; prevBtn := prevBtn p;
     body := body p; navbar := navbar p; menuToggle := menuToggle p;
     navLinks := navLinks p; window_listeners := window_listeners p;
     scrollY := scrollY p; gsap := gsap p; tweens := tweens p;
     timers := timers p; timer_seq := timer_seq p; index := index p;
     autoSlideId := v |}.


(** *** Helpers (main.js:16-51) *)

(** [slide.style.transform = `translateX(${100 * (idx - i)}%)`].  With
    [i] NaN the text is [translateX(NaN%)], which the style object rejects,
    so the property keeps its previous value. *)
Definition translateX (i : jsnum) (idx : nat) (slide : element) : element :=
  match i with
  | Num z => set_transform (Some (100 * (Z.of_nat idx - z))%Z) slide
  | NaN => slide
  end.

(** The array position [slides[i]] reads: none for NaN or a negative [i]. *)
Definition array_index (i : jsnum) : option nat :=
  match i with
  | Num z => if decide (0 ≤ z)%Z then Some (Z.to_nat z) else None
  | NaN => None
  end.

Definition showSlide (i : jsnum) : JS page unit :=
  modify (λ p, set_slides (imap (translateX i) (slides p)) p) ;;
  p ← get;
  match array_index i with
  | None => throw TypeError                 (* undefined.querySelector *)
  | Some n =>
      match slides p !! n with
      | None => throw TypeError             (* undefined.querySelector *)
      | Some slide =>
          if img slide && gsap p
          then modify (λ p, set_tweens (tweens p ++ [n]) p)
          else mret tt
      end
  end.

Definition goNext : JS page unit :=
  modify (λ p,
    set_index (js_rem (js_add (index p) 1) (Z.of_nat (length (slides p)))) p) ;;
  p ← get;
  showSlide (index p).

Definition goPrev : JS page unit :=
  modify (λ p,
    set_index (js_rem (js_add (js_add (index p) (-1))
                              (Z.of_nat (length (slides p))))
                      (Z.of_nat (length (slides p)))) p) ;;
  p ← get;
  showSlide (index p).

Definition setInterval (f : fn) (ms : Z) : JS page nat :=
  p ← get;
  modify (λ p, set_timer_seq (S (timer_seq p))
                 (set_timers (<[timer_seq p := mkTimer f ms]> (timers p)) p)) ;;
  mret (timer_seq p).

Definition clearInterval (id : nat) : JS page unit :=
  modify (λ p, set_timers (delete id (timers p)) p).

Definition stopAutoSlide : JS page unit :=
  p ← get;
  match autoSlideId p with
  | Some id => clearInterval id ;; modify (set_autoSlideId None)
  | None => mret tt
  end.

Definition startAutoSlide : JS page unit :=
  stopAutoSlide ;;
  id ← setInterval fn_goNext AUTO_SLIDE_INTERVAL_MS;
  modify (set_autoSlideId (Some id)).

(** *** attachListeners (main.js:53-62) *)

Definition attachListeners : JS page unit :=
  modify (λ p, set_nextBtn (addEventListener click fn_next_click <$> nextBtn p) p) ;;
  modify (λ p, set_prevBtn (addEventListener click fn_prev_click <$> prevBtn p) p) ;;
  modify (λ p,
    set_slides
      ((λ slide, addEventListener mouseleave fn_startAutoSlide
                   (addEventListener mouseenter fn_stopAutoSlide slide))
         <$> slides p) p).

(** *** The listeners (main.js:65-76, 79-83, 90-93) *)

Definition load_listener : JS page unit :=
  modify (λ p, set_body (classList_add "loaded" (body p)) p) ;;
  p ← get;
  if decide (length (slides p) = 0)
  then mret tt
  else showSlide (index p) ;; attachListeners ;; startAutoSlide.

Definition Qgtb (x y : Q) : bool := negb (Qle_bool x y).

Definition scroll_listener : JS page unit :=
  p ← get;
  let nav := navbar p in
  if Qgtb (scrollY p) 60%Q
  then match nav with
       | None => throw TypeError            (* null.classList *)
       | Some n => modify (set_navbar (Some (classList_add "scrolled" n)))
       end
  else match nav with
       | None => throw TypeError            (* null.classList *)
       | Some n => modify (set_navbar (Some (classList_remove "scrolled" n)))
       end.

Definition menu_listener : JS page unit :=
  p ← get;
  match navLinks p with
  | None => throw TypeError
  | Some n => modify (set_navLinks (Some (classList_toggle "open" n)))
  end ;;
  match menuToggle p with
  | None => throw TypeError
  | Some m => modify (set_menuToggle (Some (classList_toggle "active" m)))
  end.

Definition call (f : fn) : JS page unit :=
  match f with
  | fn_load => load_listener
  | fn_scroll => scroll_listener
  | fn_next_click => goNext ;; startAutoSlide
  | fn_prev_click => goPrev ;; startAutoSlide
  | fn_menu_click => menu_listener
  | fn_goNext => goNext
  | fn_startAutoSlide => startAutoSlide
  | fn_stopAutoSlide => stopAutoSlide
  end.

(** *** The script body: what running main.js does to a fresh page *)

Definition main_js : JS page unit :=
  modify (set_index (Num 0)) ;;
  modify (set_autoSlideId None) ;;
  modify (λ p, set_window_listeners
                 (add_listener true load fn_load (window_listeners p)) p) ;;
  modify (λ p, set_window_listeners
                 (add_listener true scroll fn_scroll (window_listeners p)) p) ;;
  p ← get;
  match menuToggle p, navLinks p with
  | Some m, Some _ =>
      modify (set_menuToggle (Some (addEventListener click fn_menu_click m)))
  | _, _ => mret tt
  end.

(** *** Events *)

Inductive target : Set :=
  | window | next_button | prev_button | slide (i : nat) | menu_toggle.

Inductive event : Set :=
  | Fire (t : ev_type) (on : target)
  | Scrolled (y : Q)        (* the viewport moved to offset y *)
  | Tick (id : nat).        (* interval timer id is due *)

Definition listeners_of (on : target) (p : page) : list (ev_type * fn) :=
  match on with
  | window => window_listeners p
  | next_button => from_option listeners [] (nextBtn p)
  | prev_button => from_option listeners [] (prevBtn p)
  | slide i => from_option listeners [] (slides p !! i)
  | menu_toggle => from_option listeners [] (menuToggle p)
  end.

Definition dispatch (e : event) (p : page) : page * list js_error :=
  match e with
  | Fire t on => run_all call (registered t (listeners_of on p)) p
  | Scrolled y =>
      let p' := set_scrollY y p in
      run_all call (registered scroll (listeners_of window p')) p'
  | Tick id =>
      match timers p !! id with
      | Some tm => run_all call [callback tm] p
      | None => (p, [])
      end
  end.

(** *** Vocabulary of the statements about main.js *)

(** The sequence length as the number the script computes with. *)
Definition slide_count (p : page) : Z := Z.of_nat (length (slides p)).

(** [index] is a valid position in [slides]. *)
Definition index_valid (p : page) : Prop :=
  match index p with
  | Num i => (0 ≤ i < slide_count p)%Z
  | NaN => False
  end.

(** The controller's cursor: [index] and the number of slides. *)
Definition cursor (p : page) : jsnum * Z := (index p, slide_count p).

(** The timer state: the active timers and the id the controller holds. *)
Definition timer_state (p : page) : gmap nat timer * option nat :=
  (timers p, autoSlideId p).

(** The timer [startAutoSlide] schedules. *)
Definition auto_timer : timer := mkTimer fn_goNext AUTO_SLIDE_INTERVAL_MS.

(** Every active timer is the one the controller holds the id of. *)
Definition timer_inv (p : page) : Prop :=
  match autoSlideId p with
  | Some id => dom (timers p) = {[ id ]}
  | None => timers p = ∅
  end.

(** The navbar carries the class "scrolled". *)
Definition scrolled (p : page) : bool :=
  match navbar p with
  | Some n => bool_decide ("scrolled" ∈ classList n)
  | None => false
  end.

(** A sequence of calls of [startAutoSlide] and [stopAutoSlide]. *)
Inductive auto_call : Set := call_start | call_stop.

Definition auto_calls (cs : list auto_call) : JS page unit :=
  foldr (λ c k, match c with
                | call_start => startAutoSlide
                | call_stop => stopAutoSlide
                end ;; k)
        (mret tt) cs.

(** A computation leaves the observation [π] of the page alone. *)
Definition frames {A X} (π : page → X) (m : JS page A) : Prop :=
  ∀ p, π (exec m p) = π p.

(** A computation keeps a property of the page, however it completes. *)
Definition preserves {A} (I : page → Prop) (m : JS page A) : Prop :=
  ∀ p, I p → I (exec m p).

(** *** Two pages of the site

    The home page with three slides, and the gallery page, which has
    neither slides nor a navbar. *)

Definition plain (c : gset string) (i : bool) : element :=
  {| classList := c; listeners := []; transform := None; img := i |}.

Definition home_html : page :=
  {| slides := [plain {[ "slide" ]} true; plain {[ "slide" ]} true;
                plain {[ "slide" ]} false];
     nextBtn := Some (plain ∅ false); prevBtn := Some (plain ∅ false);
     body := plain ∅ false;
     navbar := Some (plain {[ "navbar" ]} false);
     menuToggle := Some (plain {[ "menu-toggle" ]} false);
     navLinks := Some (plain {[ "nav-links" ]} false);
     window_listeners := []; scrollY := 0%Q; gsap := true; tweens := [];
     timers := ∅; timer_seq := 1; index := Num 0; autoSlideId := None |}.

Definition gallery_html : page :=
  {| slides := []; nextBtn := None; prevBtn := None;
     body := plain ∅ false; navbar := None;
     menuToggle := None; navLinks := None;
     window_listeners := []; scrollY := 0%Q; gsap := false; tweens := [];
     timers := ∅; timer_seq := 1; index := Num 0; autoSlideId := None |}.

(** *** Vocabulary of the further statements about main.js *)

Definition set_gsap (v : bool) (p : page) : page :=
  {| slides := slides p; nextBtn := nextBtn p; prevBtn := prevBtn p;
     body := body p; navbar := navbar p; menuToggle := menuToggle p;
     navLinks := navLinks p; window_listeners := window_listeners p;
     scrollY := scrollY p; gsap := v; tweens := tweens p; timers := timers p;
     timer_seq := timer_seq p; index := index p;
     autoSlideId := autoSlideId p |}.

(** An observation of the page that the slide controller cannot change:
    it ignores the slides, the tween log, the two buttons, the timers and
    the variables of the closure. *)
Record slider_blind {X} (π : page → X) : Prop := {
  blind_slides v p : π (set_slides v p) = π p;
  blind_tweens v p : π (set_tweens v p) = π p;
  blind_nextBtn v p : π (set_nextBtn v p) = π p;
  blind_prevBtn v p : π (set_prevBtn v p) = π p;
  blind_timers v p : π (set_timers v p) = π p;
  blind_timer_seq v p : π (set_timer_seq v p) = π p;
  blind_index v p : π (set_index v p) = π p;
  blind_autoSlideId v p : π (set_autoSlideId v p) = π p
}.

(** The page chrome main.js touches outside the slide controller. *)
Definition chrome (p : page) : option element * option element * option element :=
  (navbar p, menuToggle p, navLinks p).

(** The hover listeners [attachListeners] gives a slide. *)
Definition with_hover (slide : element) : element :=
  addEventListener mouseleave fn_startAutoSlide
    (addEventListener mouseenter fn_stopAutoSlide slide).


(** A page with a valid index, a navbar and both parts of the mobile menu. *)
Definition healthy (p : page) : Prop :=
  index_valid p ∧ is_Some (navbar p) ∧ is_Some (menuToggle p)
  ∧ is_Some (navLinks p).

(** A run of events, with all the exceptions reported on the way. *)
Fixpoint run_events (es : list event) (p : page) : page * list js_error :=
  match es with
  | [] => (p, [])
  | e :: es' =>
      let '(p1, errs1) := dispatch e p in
      let '(p2, errs2) := run_events es' p1 in
      (p2, errs1 ++ errs2)
  end.

(** The home page once main.js and the load listener have run. *)
Definition home_ready : page :=
  Eval vm_compute in exec load_listener (exec main_js home_html).

End Main.

(** ** gallery.js *)

Module Gallery.

(** The function values gallery.js registers. *)
Inductive fn : Set :=
  | fn_item_click (k : nat)   (* arrow function of gallery.js:7 made for items[k] *)
  | fn_close_click.           (* arrow function of gallery.js:13 *)

Global Instance fn_eq_dec : EqDecision fn.
Proof. solve_decision. Defined.

(** An [<img>]: the URL its [src] property reads, and its listeners. *)
Record image : Set := mkImage {
  src : string;
  image_listeners : list (ev_type * fn)
}.

Definition set_src (s : string) (i : image) : image :=
  {| src := s; image_listeners := image_listeners i |}.
Definition set_image_listeners (l : list (ev_type * fn)) (i : image) : image :=
  {| src := src i; image_listeners := l |}.

(** The four query results gallery.js starts with; [None] is [null].
    [viewer] is the class list of the overlay, [closeBtn] the listeners of
    the close control. *)
Record page : Type := mkPage {
  items : list image;
  viewer : option (gset string);
  viewerImg : option image;
  closeBtn : option (list (ev_type * fn))
}.

Definition set_items (v : list image) (p : page) : page :=
  {| items := v; viewer := viewer p; viewerImg := viewerImg p;
     closeBtn := closeBtn p |}.
Definition set_viewer (v : option (gset string)) (p : page) : page :=
  {| items := items p; viewer := v; viewerImg := viewerImg p;
     closeBtn := closeBtn p |}.
Definition set_viewerImg (v : option image) (p : page) : page :=
  {| items := items p; viewer := viewer p; viewerImg := v;
     closeBtn := closeBtn p |}.
Definition set_closeBtn (v : option (list (ev_type * fn))) (p : page) : page :=
  {| items := items p; viewer := viewer p; viewerImg := viewerImg p;
     closeBtn := v |}.

(** *** The listeners (gallery.js:7-10, 13-15) *)

(** The click listener of one item; [img] is the image it closes over. *)
Definition item_click_listener (img : image) : JS page unit :=
  p ← get;
  match viewerImg p with
  | None => throw TypeError                 (* null.src = ... *)
  | Some v => modify (set_viewerImg (Some (set_src (src img) v)))
  end ;;
  p ← get;
  match viewer p with
  | None => throw TypeError                 (* null.classList *)
  | Some c => modify (set_viewer (Some ({[ "show" ]} ∪ c)))
  end.

Definition close_click_listener : JS page unit :=
  p ← get;
  match viewer p with
  | None => throw TypeError                 (* null.classList *)
  | Some c => modify (set_viewer (Some (c ∖ {[ "show" ]})))
  end.

Definition call (f : fn) : JS page unit :=
  match f with
  | fn_item_click k =>
      p ← get;
      match items p !! k with
      | Some img => item_click_listener img
      | None => mret tt                     (* no such closure was made *)
      end
  | fn_close_click => close_click_listener
  end.

(** *** The script body (gallery.js:6-15) *)

Definition gallery_js : JS page unit :=
  modify (λ p,
    set_items
      (imap (λ k img,
               set_image_listeners
                 (add_listener true click (fn_item_click k) (image_listeners img))
                 img)
            (items p)) p) ;;
  p ← get;
  match closeBtn p with
  | None => throw TypeError                 (* null.addEventListener *)
  | Some ls =>
      modify (set_closeBtn (Some (add_listener true click fn_close_click ls)))
  end.

(** *** The overlay as the user sees it *)

Definition visible (p : page) : bool :=
  match viewer p with
  | Some c => bool_decide ("show" ∈ c)
  | None => false
  end.

Definition displayed (p : page) : option string := src <$> viewerImg p.

(** *** Events *)

Inductive target : Set := item (k : nat) | close_control.

Definition listeners_of (on : target) (p : page) : list (ev_type * fn) :=
  match on with
  | item k => from_option image_listeners [] (items p !! k)
  | close_control => default [] (closeBtn p)
  end.

Definition fire (t : ev_type) (on : target) (p : page) : page * list js_error :=
  run_all call (registered t (listeners_of on p)) p.

(** *** Vocabulary of the statements about gallery.js *)

(** The listeners are as gallery.js leaves them on a page that had none:
    item [k] carries the closure made for it, the close control its own. *)
Definition wired (p : page) : Prop :=
  image_listeners <$> items p
  = imap (λ k _, [(click, fn_item_click k)]) (items p)
  ∧ closeBtn p = Some [(click, fn_close_click)].

(** No element of the lightbox has a listener yet. *)
Definition unwired (p : page) : Prop :=
  image_listeners <$> items p = (λ _, []) <$> items p
  ∧ closeBtn p = Some [].

(** *** The gallery page before gallery.js runs *)

Definition gallery_html : page :=
  {| items := [ {| src := "a.jpg"; image_listeners := [] |};
                {| src := "b.jpg"; image_listeners := [] |};
                {| src := "c.jpg"; image_listeners := [] |} ];
     viewer := Some {[ "viewer" ]};
     viewerImg := Some {| src := EmptyString; image_listeners := [] |};
     closeBtn := Some [] |}.

(** The same page once gallery.js has run, and with the overlay open. *)
Definition gallery_ready : page := exec gallery_js gallery_html.
Definition gallery_open : page := (fire click (item 2) gallery_ready).1.

(** *** Vocabulary of the further statements about gallery.js *)

(** The lightbox elements that [gallery_js] never touches. *)
Definition overlay (p : page) : option (gset string) * option image :=
  (viewer p, viewerImg p).

(** Clicks on a run of items, with all the exceptions reported. *)
Fixpoint click_items (ks : list nat) (p : page) : page * list js_error :=
  match ks with
  | [] => (p, [])
  | k :: ks' =>
      let '(p1, errs1) := fire click (item k) p in
      let '(p2, errs2) := click_items ks' p1 in
      (p2, errs1 ++ errs2)
  end.

(** The gallery page without its close control. *)
Definition gallery_no_close : page := set_closeBtn None gallery_html.

End Gallery.

(** * Proofs *)

Ltac js_unfold :=
  unfold exec, outcome, mbind, mret, JS_bind, JS_ret, get, modify, throw.

(** *** Sequencing *)

Lemma bind_normal {S A B} (m : JS S A) (k : A → JS S B) s a s1 :
  m s = (Normal a, s1) → (m ≫= k) s = k a s1.
Proof. intros H. js_unfold. by rewrite H. Qed.

Lemma exec_bind_normal {S A B} (m : JS S A) (k : A → JS S B) s a s1 :
  m s = (Normal a, s1) → exec (m ≫= k) s = exec (k a) s1.
Proof. intros H. unfold exec. by rewrite (bind_normal _ _ _ _ _ H). Qed.

Lemma exec_bind {S A B} (m : JS S A) (k : A → JS S B) s a :
  outcome m s = Normal a → exec (m ≫= k) s = exec (k a) (exec m s).
Proof.
  unfold outcome, exec. js_unfold. destruct (m s) as [c s1]. simpl.
  by intros ->.
Qed.

Module MainFacts.
Import Main.

Lemma showSlide_run i p :
  ∃ c tw,
    showSlide i p
    = (c, set_tweens tw (set_slides (imap (translateX i) (slides p)) p)).
Proof.
  unfold showSlide. js_unfold. cbn.
  destruct (array_index i) as [n|]; [|eauto].
  destruct (imap _ _ !! n) as [s|]; [|eauto].
  destruct (img s && gsap p); eauto.
Qed.

Lemma showSlide_normal z p :
  (0 ≤ z < slide_count p)%Z → outcome (showSlide (Num z)) p = Normal tt.
Proof.
  intros [Hz Hlt]. unfold slide_count in Hlt.
  unfold showSlide. js_unfold. cbn.
  rewrite decide_True by done.
  destruct (imap _ _ !! Z.to_nat z) as [s|] eqn:Hs.
  - by destruct (img s && gsap p).
  - apply lookup_ge_None in Hs. rewrite length_imap in Hs. lia.
Qed.

Lemma showSlide_in_range z p :
  (0 ≤ z < slide_count p)%Z →
  ∃ tw, showSlide (Num z) p
        = (Normal tt,
           set_tweens tw (set_slides (imap (translateX (Num z)) (slides p)) p)).
Proof.
  intros Hz. pose proof (showSlide_normal z p Hz) as Hn.
  destruct (showSlide_run (Num z) p) as (c & tw & Hrun).
  unfold outcome in Hn. rewrite Hrun in Hn. simpl in Hn. subst c. eauto.
Qed.

Lemma slide_count_imap {f : nat → element → element} p tw v :
  slide_count (set_tweens tw (set_slides (imap f (slides p)) (set_index v p)))
  = slide_count p.
Proof. unfold slide_count. simpl. by rewrite length_imap. Qed.

Lemma goNext_run i p :
  index p = Num i → (0 ≤ i < slide_count p)%Z →
  ∃ tw, goNext p
        = (Normal tt,
           let j := ((i + 1) `mod` slide_count p)%Z in
           set_tweens tw
             (set_slides (imap (translateX (Num j)) (slides p))
                (set_index (Num j) p))).
Proof.
  intros Hi Hr. unfold goNext. js_unfold. cbn. rewrite Hi. cbn.
  fold (slide_count p).
  rewrite decide_False by lia.
  rewrite Z.rem_mod_nonneg by lia.
  set (j := ((i + 1) `mod` slide_count p)%Z).
  apply (showSlide_in_range j (set_index (Num j) p)).
  unfold slide_count in *. simpl. subst j. apply Z.mod_pos_bound. lia.
Qed.

Lemma goPrev_run i p :
  index p = Num i → (0 ≤ i < slide_count p)%Z →
  ∃ tw, goPrev p
        = (Normal tt,
           let j := ((i - 1 + slide_count p) `mod` slide_count p)%Z in
           set_tweens tw
             (set_slides (imap (translateX (Num j)) (slides p))
                (set_index (Num j) p))).
Proof.
  intros Hi Hr. unfold goPrev. js_unfold. cbn. rewrite Hi. cbn.
  fold (slide_count p).
  rewrite decide_False by lia.
  rewrite Z.rem_mod_nonneg by lia.
  replace (i + -1 + slide_count p)%Z with (i - 1 + slide_count p)%Z by lia.
  set (j := ((i - 1 + slide_count p) `mod` slide_count p)%Z).
  apply (showSlide_in_range j (set_index (Num j) p)).
  unfold slide_count in *. simpl. subst j. apply Z.mod_pos_bound. lia.
Qed.


(** *** Frame facts: what a computation leaves alone *)

Lemma frames_ret {A X} (π : page → X) (a : A) : frames π (mret a).
Proof. by intros p. Qed.

Lemma frames_get {X} (π : page → X) : frames π get.
Proof. by intros p. Qed.

Lemma frames_throw {A X} (π : page → X) e : frames π (throw (A:=A) e).
Proof. by intros p. Qed.

Lemma frames_modify {X} (π : page → X) f :
  (∀ p, π (f p) = π p) → frames π (modify f).
Proof. intros Hf p. apply Hf. Qed.

Lemma frames_bind {A B X} (π : page → X) (m : JS page A) (k : A → JS page B) :
  frames π m → (∀ a, frames π (k a)) → frames π (m ≫= k).
Proof.
  intros Hm Hk p. specialize (Hm p). unfold exec in *. js_unfold.
  destruct (m p) as [[a|e] p1]; simpl in *; [|done].
  rewrite <- Hm. apply Hk.
Qed.

Ltac frames_step :=
  first [ apply frames_ret | apply frames_get | apply frames_throw
        | apply frames_modify; intros ?; reflexivity
        | apply frames_bind; [|intros ?] ].

Lemma showSlide_cursor i : frames cursor (showSlide i).
Proof.
  intros p. destruct (showSlide_run i p) as (c & tw & Hrun).
  unfold exec, cursor, slide_count. rewrite Hrun. simpl.
  by rewrite length_imap.
Qed.

Lemma showSlide_timer_state i : frames timer_state (showSlide i).
Proof.
  intros p. destruct (showSlide_run i p) as (c & tw & Hrun).
  unfold exec. by rewrite Hrun.
Qed.

Lemma stopAutoSlide_cursor : frames cursor stopAutoSlide.
Proof.
  unfold stopAutoSlide, clearInterval. frames_step; [frames_step|].
  destruct (autoSlideId a); repeat frames_step.
Qed.

Lemma startAutoSlide_cursor : frames cursor startAutoSlide.
Proof.
  unfold startAutoSlide, setInterval.
  frames_step; [apply stopAutoSlide_cursor|]. repeat frames_step.
Qed.

Lemma attachListeners_cursor : frames cursor attachListeners.
Proof.
  unfold attachListeners. repeat frames_step.
  apply frames_modify. intros p. unfold cursor, slide_count. simpl.
  by rewrite length_fmap.
Qed.

Lemma attachListeners_timer_state : frames timer_state attachListeners.
Proof. unfold attachListeners. repeat frames_step. Qed.

Lemma scroll_listener_cursor : frames cursor scroll_listener.
Proof.
  unfold scroll_listener. frames_step; [frames_step|].
  destruct (Qgtb _ _), (navbar a); repeat frames_step.
Qed.

Lemma scroll_listener_timer_state : frames timer_state scroll_listener.
Proof.
  unfold scroll_listener. frames_step; [frames_step|].
  destruct (Qgtb _ _), (navbar a); repeat frames_step.
Qed.

Lemma menu_listener_cursor : frames cursor menu_listener.
Proof.
  unfold menu_listener. frames_step; [frames_step|].
  frames_step; [destruct (navLinks a) | destruct (menuToggle a)];
    repeat frames_step.
Qed.

Lemma menu_listener_timer_state : frames timer_state menu_listener.
Proof.
  unfold menu_listener. frames_step; [frames_step|].
  frames_step; [destruct (navLinks a) | destruct (menuToggle a)];
    repeat frames_step.
Qed.

Lemma load_listener_cursor : frames cursor load_listener.
Proof.
  unfold load_listener. do 2 (frames_step; [frames_step|]).
  destruct (decide _); [frames_step|].
  frames_step; [apply showSlide_cursor|].
  frames_step; [apply attachListeners_cursor | apply startAutoSlide_cursor].
Qed.


(** *** The cursor under goNext and goPrev *)

Lemma index_valid_alt p :
  index_valid p ↔ ∃ i : Z, index p = Num i ∧ (0 ≤ i < slide_count p)%Z.
Proof.
  unfold index_valid. destruct (index p) as [i|]; split.
  - eauto.
  - by intros (j & [= ->] & ?).
  - done.
  - by intros (j & ? & _).
Qed.

Lemma index_valid_cursor p p' :
  cursor p' = cursor p → index_valid p → index_valid p'.
Proof. unfold cursor, index_valid. by intros [= -> ->]. Qed.

Lemma frames_index_valid {A} (m : JS page A) p :
  frames cursor m → index_valid p → index_valid (exec m p).
Proof. intros Hm. apply index_valid_cursor, Hm. Qed.

Lemma goNext_cursor i p :
  index p = Num i → (0 ≤ i < slide_count p)%Z →
  ∃ p', goNext p = (Normal tt, p')
        ∧ cursor p' = (Num ((i + 1) `mod` slide_count p)%Z, slide_count p).
Proof.
  intros Hi Hr. destruct (goNext_run i p Hi Hr) as [tw ->].
  eexists; split; [done|]. unfold cursor. by rewrite slide_count_imap.
Qed.

Lemma goPrev_cursor i p :
  index p = Num i → (0 ≤ i < slide_count p)%Z →
  ∃ p', goPrev p = (Normal tt, p')
        ∧ cursor p'
          = (Num ((i - 1 + slide_count p) `mod` slide_count p)%Z, slide_count p).
Proof.
  intros Hi Hr. destruct (goPrev_run i p Hi Hr) as [tw ->].
  eexists; split; [done|]. unfold cursor. by rewrite slide_count_imap.
Qed.

Lemma goNext_index_valid p :
  index_valid p → outcome goNext p = Normal tt ∧ index_valid (exec goNext p).
Proof.
  intros (i & Hi & Hr)%index_valid_alt.
  destruct (goNext_cursor i p Hi Hr) as (p' & Hrun & [= Hi' Hc]).
  unfold outcome, exec. rewrite Hrun. split; [done|]. simpl.
  apply index_valid_alt. eexists; split; [done|].
  rewrite Hc. apply Z.mod_pos_bound. lia.
Qed.

Lemma goPrev_index_valid p :
  index_valid p → outcome goPrev p = Normal tt ∧ index_valid (exec goPrev p).
Proof.
  intros (i & Hi & Hr)%index_valid_alt.
  destruct (goPrev_cursor i p Hi Hr) as (p' & Hrun & [= Hi' Hc]).
  unfold outcome, exec. rewrite Hrun. split; [done|]. simpl.
  apply index_valid_alt. eexists; split; [done|].
  rewrite Hc. apply Z.mod_pos_bound. lia.
Qed.

Lemma times_goNext k : ∀ p i,
  index p = Num i → (0 ≤ i < slide_count p)%Z →
  ∃ p', times k goNext p = (Normal tt, p')
        ∧ cursor p' = (Num ((i + Z.of_nat k) `mod` slide_count p)%Z, slide_count p).
Proof.
  induction k as [|k IH]; intros p i Hi Hr.
  - exists p. split; [done|]. unfold cursor.
    rewrite Z.add_0_r, Z.mod_small by done. by rewrite Hi.
  - destruct (goNext_cursor i p Hi Hr) as (p1 & Hrun & [= Hi1 Hc1]).
    destruct (IH p1 _ Hi1) as (p' & Hrest & Hcur).
    { rewrite Hc1. apply Z.mod_pos_bound. lia. }
    exists p'. split.
    + simpl. by rewrite (bind_normal _ _ _ _ _ Hrun).
    + rewrite Hcur, Hc1. rewrite Zplus_mod_idemp_l.
      do 3 f_equal. lia.
Qed.

(** *** The timer state under startAutoSlide and stopAutoSlide *)

Lemma stopAutoSlide_run p :
  stopAutoSlide p
  = (Normal tt,
     match autoSlideId p with
     | Some id => set_autoSlideId None (set_timers (delete id (timers p)) p)
     | None => p
     end).
Proof. unfold stopAutoSlide, clearInterval. js_unfold. by destruct (autoSlideId p). Qed.

Lemma startAutoSlide_run p :
  startAutoSlide p
  = (Normal tt,
     let p1 := exec stopAutoSlide p in
     set_autoSlideId (Some (timer_seq p))
       (set_timer_seq (S (timer_seq p))
          (set_timers (<[timer_seq p := auto_timer]> (timers p1)) p1))).
Proof.
  unfold startAutoSlide. rewrite (bind_normal _ _ _ _ _ (stopAutoSlide_run p)).
  unfold exec. rewrite stopAutoSlide_run. unfold setInterval. js_unfold.
  by destruct (autoSlideId p).
Qed.

Lemma stopAutoSlide_clears p :
  timer_inv p →
  timers (exec stopAutoSlide p) = ∅ ∧ autoSlideId (exec stopAutoSlide p) = None.
Proof.
  unfold timer_inv, exec. rewrite stopAutoSlide_run.
  destruct (autoSlideId p) as [id|] eqn:Hid; simpl; [|by rewrite Hid].
  intros Hdom. split; [|done].
  apply (dom_empty_inv_L (D:=gset nat)). rewrite dom_delete_L, Hdom. apply difference_diag_L.
Qed.

Lemma startAutoSlide_single p :
  timer_inv p →
  timers (exec startAutoSlide p) = {[ timer_seq p := auto_timer ]}
  ∧ autoSlideId (exec startAutoSlide p) = Some (timer_seq p).
Proof.
  intros Hinv. destruct (stopAutoSlide_clears p Hinv) as [Hempty _].
  unfold exec in *. rewrite startAutoSlide_run. simpl.
  unfold exec. by rewrite Hempty.
Qed.

Lemma stopAutoSlide_timer_inv p : timer_inv p → timer_inv (exec stopAutoSlide p).
Proof.
  intros Hinv. destruct (stopAutoSlide_clears p Hinv) as [Ht Ha].
  unfold timer_inv. by rewrite Ha.
Qed.

Lemma startAutoSlide_timer_inv p : timer_inv p → timer_inv (exec startAutoSlide p).
Proof.
  intros Hinv. destruct (startAutoSlide_single p Hinv) as [Ht Ha].
  unfold timer_inv. rewrite Ha, Ht. by rewrite dom_singleton_L.
Qed.

Lemma timer_inv_size p : timer_inv p → size (timers p) ≤ 1.
Proof.
  unfold timer_inv. destruct (autoSlideId p) as [id|].
  - intros Hdom. rewrite <- size_dom, Hdom, size_singleton. lia.
  - intros Ht. rewrite Ht, map_size_empty. lia.
Qed.


Lemma goNext_timer_state : frames timer_state goNext.
Proof.
  unfold goNext. frames_step; [frames_step|]. frames_step; [frames_step|].
  apply showSlide_timer_state.
Qed.

Lemma goPrev_timer_state : frames timer_state goPrev.
Proof.
  unfold goPrev. frames_step; [frames_step|]. frames_step; [frames_step|].
  apply showSlide_timer_state.
Qed.

Lemma timer_inv_timer_state p p' :
  timer_state p' = timer_state p → timer_inv p → timer_inv p'.
Proof. unfold timer_state, timer_inv. by intros [= -> ->]. Qed.

Lemma call_index_valid f p : index_valid p → index_valid (exec (call f) p).
Proof.
  intros Hv. destruct f; simpl.
  - by apply (frames_index_valid _ _ load_listener_cursor).
  - by apply (frames_index_valid _ _ scroll_listener_cursor).
  - destruct (goNext_index_valid p Hv) as [Ho Hv1].
    unfold outcome, exec in Ho, Hv1. destruct (goNext p) as [c p1] eqn:Hrun.
    simpl in *. subst c. rewrite (exec_bind_normal _ _ _ _ _ Hrun).
    by apply (frames_index_valid _ _ startAutoSlide_cursor).
  - destruct (goPrev_index_valid p Hv) as [Ho Hv1].
    unfold outcome, exec in Ho, Hv1. destruct (goPrev p) as [c p1] eqn:Hrun.
    simpl in *. subst c. rewrite (exec_bind_normal _ _ _ _ _ Hrun).
    by apply (frames_index_valid _ _ startAutoSlide_cursor).
  - by apply (frames_index_valid _ _ menu_listener_cursor).
  - by apply goNext_index_valid.
  - by apply (frames_index_valid _ _ startAutoSlide_cursor).
  - by apply (frames_index_valid _ _ stopAutoSlide_cursor).
Qed.

Lemma run_all_preserves (I : page → Prop) fs :
  (∀ f p, I p → I (exec (call f) p)) →
  ∀ p, I p → I (run_all call fs p).1.
Proof.
  intros Hcall. induction fs as [|f fs IH]; intros p Hp; [done|].
  simpl. specialize (Hcall f p Hp). unfold exec in Hcall.
  destruct (call f p) as [c p1]. specialize (IH p1 Hcall).
  by destruct (run_all call fs p1).
Qed.

Lemma dispatch_preserves (I : page → Prop) e :
  (∀ f p, I p → I (exec (call f) p)) →
  (∀ y p, I p → I (set_scrollY y p)) →
  ∀ p, I p → I (dispatch e p).1.
Proof.
  intros Hcall Hscroll p Hp. destruct e as [t on|y|id]; unfold dispatch.
  - by apply run_all_preserves.
  - apply run_all_preserves; [done|]. by apply Hscroll.
  - destruct (timers p !! id); [|done]. by apply run_all_preserves.
Qed.

Lemma main_js_run p :
  ∃ mt wl,
    main_js p
    = (Normal tt,
       set_menuToggle mt
         (set_window_listeners wl (set_autoSlideId None (set_index (Num 0) p)))).
Proof.
  unfold main_js. js_unfold. simpl.
  destruct (menuToggle p) as [m|] eqn:Hm, (navLinks p); simpl.
  all: eexists _, _; unfold set_menuToggle, set_window_listeners; simpl;
    rewrite ?Hm; reflexivity.
Qed.


Lemma auto_calls_timer_inv cs : ∀ p,
  timer_inv p →
  outcome (auto_calls cs) p = Normal tt ∧ timer_inv (exec (auto_calls cs) p).
Proof.
  induction cs as [|c cs IH]; intros p Hinv; [done|].
  simpl. destruct c.
  - pose proof (startAutoSlide_timer_inv p Hinv) as H1.
    unfold exec, outcome in *. rewrite (bind_normal _ _ _ _ _ (startAutoSlide_run p)).
    rewrite startAutoSlide_run in H1. by apply IH.
  - pose proof (stopAutoSlide_timer_inv p Hinv) as H1.
    unfold exec, outcome in *. rewrite (bind_normal _ _ _ _ _ (stopAutoSlide_run p)).
    rewrite stopAutoSlide_run in H1. by apply IH.
Qed.

Lemma Qgtb_lt (x y : Q) : Qgtb x y = true ↔ (y < x)%Q.
Proof.
  unfold Qgtb. rewrite negb_true_iff, <- not_true_iff_false, Qle_bool_iff.
  split; [apply Qnot_le_lt | apply Qlt_not_le].
Qed.

Lemma scroll_listener_run p n :
  navbar p = Some n →
  scroll_listener p
  = (Normal tt,
     set_navbar (Some (if Qgtb (scrollY p) 60%Q
                       then classList_add "scrolled" n
                       else classList_remove "scrolled" n)) p).
Proof.
  intros Hn. unfold scroll_listener. js_unfold. rewrite Hn.
  by destruct (Qgtb _ _).
Qed.

Lemma scrolled_after_scroll p y :
  is_Some (navbar p) →
  scrolled (exec scroll_listener (set_scrollY y p)) = Qgtb y 60%Q.
Proof.
  intros [n Hn]. unfold exec.
  rewrite (scroll_listener_run (set_scrollY y p) n) by done.
  unfold scrolled. simpl. destruct (Qgtb y 60%Q); simpl.
  - apply bool_decide_eq_true, elem_of_union_l, elem_of_singleton. done.
  - apply bool_decide_eq_false, not_elem_of_difference. right.
    by apply elem_of_singleton.
Qed.

(** *** The timer invariant holds throughout the life of the page *)

Lemma preserves_bind {A B} I (m : JS page A) (k : A → JS page B) :
  preserves I m → (∀ a, preserves I (k a)) → preserves I (m ≫= k).
Proof.
  intros Hm Hk p Hp. specialize (Hm p Hp). unfold exec in *. js_unfold.
  destruct (m p) as [[a|e] p1]; simpl in *; [|done]. by apply Hk.
Qed.

Lemma frames_preserves_timer_inv {A} (m : JS page A) :
  frames timer_state m → preserves timer_inv m.
Proof. intros Hm p. apply timer_inv_timer_state, Hm. Qed.

Lemma call_timer_inv f : preserves timer_inv (call f).
Proof.
  destruct f; simpl.
  - unfold load_listener.
    apply preserves_bind; [apply frames_preserves_timer_inv; frames_step|].
    intros _. apply preserves_bind; [apply frames_preserves_timer_inv; frames_step|].
    intros q. destruct (decide _); [apply frames_preserves_timer_inv; frames_step|].
    apply preserves_bind;
      [apply frames_preserves_timer_inv, showSlide_timer_state|intros _].
    apply preserves_bind;
      [apply frames_preserves_timer_inv, attachListeners_timer_state|intros _].
    intros ?. apply startAutoSlide_timer_inv.
  - apply frames_preserves_timer_inv, scroll_listener_timer_state.
  - apply preserves_bind;
      [apply frames_preserves_timer_inv, goNext_timer_state|intros _].
    intros ?. apply startAutoSlide_timer_inv.
  - apply preserves_bind;
      [apply frames_preserves_timer_inv, goPrev_timer_state|intros _].
    intros ?. apply startAutoSlide_timer_inv.
  - apply frames_preserves_timer_inv, menu_listener_timer_state.
  - apply frames_preserves_timer_inv, goNext_timer_state.
  - intros ?. apply startAutoSlide_timer_inv.
  - intros ?. apply stopAutoSlide_timer_inv.
Qed.

Lemma main_js_timer_inv p : timers p = ∅ → timer_inv (exec main_js p).
Proof.
  intros Ht. destruct (main_js_run p) as (mt & wl & Hrun).
  unfold exec. rewrite Hrun. done.
Qed.

Lemma dispatch_timer_inv e p : timer_inv p → timer_inv (dispatch e p).1.
Proof.
  apply (dispatch_preserves timer_inv); [|done].
  intros f q. apply call_timer_inv.
Qed.

(** *** The claims about main.js *)

(** C1: on a page without a navbar element the scroll listener does not
    complete silently: at every offset it throws a TypeError (and leaves the
    page state as it was).  On the gallery page, which has no navbar, a
    scroll event after main.js has run reports that TypeError. *)
Theorem scroll_listener_without_navbar_throws (p : page) (y : Q) :
  scroll_listener (set_scrollY y (set_navbar None p))
  = (Throw TypeError, set_scrollY y (set_navbar None p))
  ∧ (dispatch (Scrolled 0%Q) (exec main_js gallery_html)).2 = [TypeError].
Proof.
  split; [|reflexivity].
  unfold scroll_listener. js_unfold. simpl. by destruct (Qgtb y 60%Q).
Qed.

(** C2: on a page with zero slide panels the load listener completes
    normally and only adds "loaded" to the class list of the body: no timer
    is created, no listener is attached to any element, no slide is moved
    and no tween is started. *)
Theorem load_without_slides (p : page) :
  slides p = [] →
  load_listener p
  = (Normal tt, set_body (classList_add "loaded" (body p)) p)
  ∧ "loaded" ∈ classList (body (exec load_listener p))
  ∧ timers (exec load_listener p) = timers p
  ∧ autoSlideId (exec load_listener p) = autoSlideId p
  ∧ (∀ on, listeners_of on (exec load_listener p) = listeners_of on p)
  ∧ slides (exec load_listener p) = slides p
  ∧ index (exec load_listener p) = index p
  ∧ tweens (exec load_listener p) = tweens p.
Proof.
  intros Hs.
  assert (load_listener p
          = (Normal tt, set_body (classList_add "loaded" (body p)) p)) as Hrun.
  { unfold load_listener. js_unfold. simpl. by rewrite Hs. }
  unfold exec. rewrite Hrun. simpl. split_and!; try done.
  apply elem_of_union_l, elem_of_singleton. done.
Qed.

(** C3: from a valid index, each call of goNext moves the index one
    position forward, wrapping from the last slide to 0; after k calls the
    index is (i + k) mod N, and after N calls it is back at i. *)
Theorem goNext_cycle (p : page) (i : Z) :
  index p = Num i → (0 ≤ i < slide_count p)%Z →
  (outcome goNext p = Normal tt
   ∧ index (exec goNext p)
     = Num (if decide (i = slide_count p - 1)%Z then 0 else i + 1)%Z)
  ∧ (∀ k : nat,
       outcome (times k goNext) p = Normal tt
       ∧ index (exec (times k goNext) p)
         = Num ((i + Z.of_nat k) `mod` slide_count p)%Z)
  ∧ outcome (times (length (slides p)) goNext) p = Normal tt
  ∧ index (exec (times (length (slides p)) goNext) p) = Num i.
Proof.
  intros Hi Hr.
  assert (∀ k : nat,
       outcome (times k goNext) p = Normal tt
       ∧ index (exec (times k goNext) p)
         = Num ((i + Z.of_nat k) `mod` slide_count p)%Z) as Hk.
  { intros k. destruct (times_goNext k p i Hi Hr) as (p' & Hrun & [= Hi' _]).
    unfold outcome, exec. by rewrite Hrun. }
  split_and!.
  - destruct (goNext_cursor i p Hi Hr) as (p' & Hrun & [= Hi' _]).
    unfold outcome. by rewrite Hrun.
  - destruct (goNext_cursor i p Hi Hr) as (p' & Hrun & [= Hi' _]).
    unfold exec. rewrite Hrun. simpl. rewrite Hi'. f_equal.
    case_decide as Hlast.
    + replace (i + 1)%Z with (slide_count p) by lia. apply Z_mod_same_full.
    + apply Z.mod_small. lia.
  - done.
  - apply Hk.
  - destruct (Hk (length (slides p))) as [_ ->]. f_equal.
    fold (slide_count p).
    rewrite <- (Z.mul_1_l (slide_count p)) at 1.
    rewrite Z_mod_plus_full. apply Z.mod_small. done.
Qed.

(** C4: from any state in which every active timer is the one the
    controller tracks, stopAutoSlide leaves no timer and startAutoSlide
    leaves exactly the newly scheduled one; any sequence of the two calls
    ends with at most one timer, and two startAutoSlide calls in a row end
    with exactly one. *)
Theorem at_most_one_auto_timer (p : page) (cs : list auto_call) :
  timer_inv p →
  timers (exec stopAutoSlide p) = ∅
  ∧ timers (exec startAutoSlide p) = {[ timer_seq p := auto_timer ]}
  ∧ outcome (auto_calls cs) p = Normal tt
  ∧ timer_inv (exec (auto_calls cs) p)
  ∧ size (timers (exec (auto_calls cs) p)) ≤ 1
  ∧ size (timers (exec (startAutoSlide ;; startAutoSlide) p)) = 1.
Proof.
  intros Hinv.
  destruct (auto_calls_timer_inv cs p Hinv) as [Ho Hi].
  split_and!; try done.
  - apply (stopAutoSlide_clears p Hinv).
  - apply (startAutoSlide_single p Hinv).
  - by apply timer_inv_size.
  - rewrite (exec_bind _ _ _ tt) by (unfold outcome; by rewrite startAutoSlide_run).
    destruct (startAutoSlide_single _ (startAutoSlide_timer_inv p Hinv)) as [-> _].
    apply map_size_singleton.
Qed.


(** C6: with a navbar on the page, the scroll listener completes normally
    and the navbar carries "scrolled" afterwards exactly when the offset is
    above 60, whatever the state before: not at 60, at 61, and after two
    samples only the second counts. *)
Theorem navbar_scrolled_iff_above_60 (p : page) (y : Q) :
  is_Some (navbar p) →
  outcome scroll_listener (set_scrollY y p) = Normal tt
  ∧ (scrolled (exec scroll_listener (set_scrollY y p)) = true ↔ (60 < y)%Q)
  ∧ scrolled (exec scroll_listener (set_scrollY 60%Q p)) = false
  ∧ scrolled (exec scroll_listener (set_scrollY 61%Q p)) = true
  ∧ (∀ y0 : Q,
       scrolled (exec scroll_listener
                   (set_scrollY y (exec scroll_listener (set_scrollY y0 p))))
       = scrolled (exec scroll_listener (set_scrollY y p))).
Proof.
  intros Hnav. split_and!.
  - destruct Hnav as [n Hn]. unfold outcome.
    by rewrite (scroll_listener_run (set_scrollY y p) n).
  - rewrite scrolled_after_scroll by done. apply Qgtb_lt.
  - by rewrite scrolled_after_scroll.
  - by rewrite scrolled_after_scroll.
  - intros y0. rewrite !scrolled_after_scroll; [done..|].
    destruct Hnav as [n Hn]. unfold exec.
    by rewrite (scroll_listener_run (set_scrollY y0 p) n).
Qed.

(** C7: running main.js on a page with at least one slide leaves index 0,
    a valid position; and from any state with a valid index every event
    (load, scroll, click, hover, timer tick), every function the script
    registers, and goNext and goPrev in particular, leave the index valid. *)
Theorem index_stays_valid (p : page) :
  (slides p ≠ [] →
     index (exec main_js p) = Num 0 ∧ index_valid (exec main_js p))
  ∧ (index_valid p →
       (outcome goNext p = Normal tt ∧ index_valid (exec goNext p))
       ∧ (outcome goPrev p = Normal tt ∧ index_valid (exec goPrev p))
       ∧ (∀ f, index_valid (exec (call f) p))
       ∧ (∀ e, index_valid (dispatch e p).1)).
Proof.
  split.
  - intros Hne. destruct (main_js_run p) as (mt & wl & Hrun).
    unfold exec. rewrite Hrun. simpl. split; [done|].
    unfold index_valid, slide_count. simpl.
    destruct (slides p); [done|]. simpl. lia.
  - intros Hv. split_and!.
    + by apply goNext_index_valid.
    + by apply goNext_index_valid.
    + by apply goPrev_index_valid.
    + by apply goPrev_index_valid.
    + intros f. by apply call_index_valid.
    + intros e. apply (dispatch_preserves index_valid); [|done..].
      intros f q. apply call_index_valid.
Qed.

(** C8: with N >= 1 slides and index 0, goPrev completes normally and
    leaves index N - 1; index 0 is the state right after main.js and the
    load listener have run. *)
Theorem goPrev_wraps_to_last (p : page) :
  (1 ≤ slide_count p)%Z →
  (index p = Num 0 →
     outcome goPrev p = Normal tt
     ∧ index (exec goPrev p) = Num (slide_count p - 1))
  ∧ (let p0 := exec load_listener (exec main_js p) in
     index p0 = Num 0
     ∧ slide_count p0 = slide_count p
     ∧ outcome goPrev p0 = Normal tt
     ∧ index (exec goPrev p0) = Num (slide_count p - 1)).
Proof.
  intros HN.
  assert (∀ q, slide_count q = slide_count p → index q = Num 0 →
            outcome goPrev q = Normal tt
            ∧ index (exec goPrev q) = Num (slide_count p - 1)) as Hprev.
  { intros q Hc Hi.
    destruct (goPrev_cursor 0 q Hi) as (q' & Hrun & [= Hi' _]); [lia|].
    unfold outcome, exec. rewrite Hrun. simpl. split; [done|].
    rewrite Hi', Hc. f_equal.
    replace (0 - 1 + slide_count p)%Z with (slide_count p - 1)%Z by lia.
    apply Z.mod_small. lia. }
  split; [by apply Hprev|]. simpl.
  assert (cursor (exec load_listener (exec main_js p)) = (Num 0, slide_count p))
    as [= Hi Hc].
  { rewrite load_listener_cursor. destruct (main_js_run p) as (mt & wl & Hrun).
    unfold exec. by rewrite Hrun. }
  split_and!; try done; by apply Hprev.
Qed.

(** C9: stopAutoSlide with no timer held (autoSlideId is null, which under
    the timer invariant is the same as no timer being active) completes
    normally and returns the page as it was; and from any state, calling it
    twice is the same as calling it once. *)
Theorem stopAutoSlide_idempotent (p : page) :
  (autoSlideId p = None → stopAutoSlide p = (Normal tt, p))
  ∧ (timer_inv p → timers p = ∅ → stopAutoSlide p = (Normal tt, p))
  ∧ (stopAutoSlide ;; stopAutoSlide) p = stopAutoSlide p.
Proof.
  assert (autoSlideId p = None → stopAutoSlide p = (Normal tt, p)) as Hidle.
  { intros Hnone. rewrite stopAutoSlide_run. by rewrite Hnone. }
  split_and!.
  - done.
  - unfold timer_inv. intros Hinv Hempty. apply Hidle.
    destruct (autoSlideId p) as [id|]; [|done].
    rewrite Hempty, dom_empty_L in Hinv.
    exfalso. apply (not_elem_of_empty (C:=gset nat) id).
    rewrite Hinv. by apply elem_of_singleton.
  - rewrite (bind_normal _ _ _ _ _ (stopAutoSlide_run p)).
    rewrite !stopAutoSlide_run. destruct (autoSlideId p) eqn:E; simpl.
    all: by rewrite ?E.
Qed.

(** *** The claims at the pages of the site *)

Lemma load_without_slides_witness :
  slides gallery_html = []
  ∧ load_listener gallery_html
    = (Normal tt,
       set_body (classList_add "loaded" (body gallery_html)) gallery_html).
Proof.
  split; [reflexivity|].
  exact (proj1 (load_without_slides gallery_html eq_refl)).
Defined.

Lemma goNext_cycle_witness :
  index home_html = Num 0
  ∧ (0 ≤ 0 < slide_count home_html)%Z
  ∧ index (exec (times 3 goNext) home_html) = Num 0.
Proof.
  assert (0 ≤ 0 < slide_count home_html)%Z as Hr
    by (unfold slide_count; simpl; lia).
  split; [reflexivity|]. split; [exact Hr|].
  apply (goNext_cycle home_html 0 eq_refl Hr).
Defined.

Lemma at_most_one_auto_timer_witness :
  timer_inv home_html
  ∧ size (timers (exec (auto_calls [call_start; call_start; call_stop;
                                    call_start]) home_html)) ≤ 1.
Proof.
  split; [reflexivity|].
  apply (at_most_one_auto_timer home_html). reflexivity.
Defined.

Lemma navbar_scrolled_iff_above_60_witness :
  is_Some (navbar home_html)
  ∧ scrolled (exec scroll_listener (set_scrollY 61%Q home_html)) = true.
Proof.
  assert (is_Some (navbar home_html)) as Hnav by (eexists; reflexivity).
  split; [exact Hnav|].
  apply (navbar_scrolled_iff_above_60 home_html 0%Q Hnav).
Defined.

Lemma index_stays_valid_witness :
  slides home_html ≠ []
  ∧ index_valid home_html
  ∧ index_valid (exec main_js home_html)
  ∧ index_valid (exec goPrev home_html).
Proof.
  assert (slides home_html ≠ []) as Hne by discriminate.
  assert (index_valid home_html) as Hv
    by (unfold index_valid, slide_count; simpl; lia).
  destruct (index_stays_valid home_html) as [Hinit Hstep].
  split_and!; [exact Hne | exact Hv | apply (Hinit Hne) | apply (Hstep Hv)].
Defined.

Lemma goPrev_wraps_to_last_witness :
  (1 ≤ slide_count home_html)%Z
  ∧ index home_html = Num 0
  ∧ index (exec goPrev home_html) = Num 2.
Proof.
  assert (1 ≤ slide_count home_html)%Z as HN
    by (unfold slide_count; simpl; lia).
  split_and!; [exact HN | reflexivity |].
  exact (proj2 (proj1 (goPrev_wraps_to_last home_html HN) eq_refl)).
Defined.

Lemma stopAutoSlide_idempotent_witness :
  autoSlideId home_html = None
  ∧ stopAutoSlide home_html = (Normal tt, home_html).
Proof.
  split; [reflexivity|].
  exact (proj1 (stopAutoSlide_idempotent home_html) eq_refl).
Defined.

End MainFacts.

Module GalleryFacts.
Import Gallery.

Lemma wired_lookup p k img :
  wired p → items p !! k = Some img →
  image_listeners img = [(click, fn_item_click k)].
Proof.
  intros [Hitems _] Hk. apply (f_equal (.!! k)) in Hitems.
  rewrite list_lookup_fmap, list_lookup_imap, Hk in Hitems.
  by injection Hitems.
Qed.

Lemma gallery_js_wires p :
  unwired p →
  outcome gallery_js p = Normal tt ∧ wired (exec gallery_js p).
Proof.
  intros [Hitems Hclose]. unfold gallery_js. js_unfold. simpl.
  rewrite Hclose. simpl. split; [done|]. split; [|done]. simpl.
  apply list_eq. intros k.
  apply (f_equal (.!! k)) in Hitems. rewrite !list_lookup_fmap in Hitems.
  rewrite list_lookup_fmap, !list_lookup_imap.
  destruct (items p !! k) as [img|]; [|done]. simpl in *.
  injection Hitems as ->. done.
Qed.

Lemma item_click_listener_run img p c v :
  viewer p = Some c → viewerImg p = Some v →
  item_click_listener img p
  = (Normal tt,
     set_viewer (Some ({[ "show" ]} ∪ c))
       (set_viewerImg (Some (set_src (src img) v)) p)).
Proof.
  intros Hc Hv. unfold item_click_listener. js_unfold.
  rewrite Hv. simpl. by rewrite Hc.
Qed.

Lemma close_click_listener_run p c :
  viewer p = Some c →
  close_click_listener p = (Normal tt, set_viewer (Some (c ∖ {[ "show" ]})) p).
Proof. intros Hc. unfold close_click_listener. js_unfold. by rewrite Hc. Qed.

Lemma fire_click_item p k img c v :
  wired p → items p !! k = Some img →
  viewer p = Some c → viewerImg p = Some v →
  fire click (item k) p
  = (set_viewer (Some ({[ "show" ]} ∪ c))
       (set_viewerImg (Some (set_src (src img) v)) p), []).
Proof.
  intros Hw Hk Hc Hv. unfold fire, listeners_of. rewrite Hk. simpl.
  rewrite (wired_lookup p k img Hw Hk). simpl.
  unfold mbind, JS_bind, get at 1. rewrite Hk.
  by rewrite (item_click_listener_run img p c v).
Qed.

Lemma fire_click_close p c :
  wired p → viewer p = Some c →
  fire click close_control p = (set_viewer (Some (c ∖ {[ "show" ]})) p, []).
Proof.
  intros [_ Hclose] Hc. unfold fire, listeners_of. rewrite Hclose. simpl.
  by rewrite (close_click_listener_run p c).
Qed.

(** *** The claims about gallery.js *)

(** C5: on a wired gallery page with its overlay elements present, a click
    on an item a and then on an item b leaves the overlay visible and
    showing the source of b; a click on the close control then hides the
    overlay and changes nothing else, so the source of b stays displayed.
    No listener throws. *)
Theorem second_click_replaces_then_close_hides
    (p : page) (i j : nat) (a b : image) :
  wired p → is_Some (viewer p) → is_Some (viewerImg p) →
  items p !! i = Some a → items p !! j = Some b →
  let r1 := fire click (item i) p in
  let r2 := fire click (item j) r1.1 in
  let r3 := fire click close_control r2.1 in
  r1.2 = [] ∧ r2.2 = [] ∧ r3.2 = []
  ∧ visible r2.1 = true ∧ displayed r2.1 = Some (src b)
  ∧ visible r3.1 = false ∧ displayed r3.1 = Some (src b)
  ∧ viewerImg r3.1 = viewerImg r2.1 ∧ items r3.1 = items r2.1.
Proof.
  intros Hw [c Hc] [v Hv] Hi Hj. simpl.
  rewrite (fire_click_item p i a c v) by done. simpl.
  erewrite (fire_click_item _ j b) by done. simpl.
  erewrite fire_click_close by done. simpl.
  split_and!; try done.
  - unfold visible. simpl. apply bool_decide_eq_true, elem_of_union_l.
    by apply elem_of_singleton.
  - unfold visible. simpl. apply bool_decide_eq_false, not_elem_of_difference.
    right. by apply elem_of_singleton.
Qed.

(** C10: a click on an item while the overlay is visible leaves it visible
    and showing that item's source, and a second click on the same item
    gives back the very same page state. *)
Theorem click_while_visible_idempotent (p : page) (k : nat) (img : image) :
  wired p → is_Some (viewerImg p) → visible p = true →
  items p !! k = Some img →
  let r1 := fire click (item k) p in
  let r2 := fire click (item k) r1.1 in
  r1.2 = [] ∧ visible r1.1 = true ∧ displayed r1.1 = Some (src img)
  ∧ r2 = r1.
Proof.
  intros Hw [v Hv] Hvis Hk. simpl.
  unfold visible in Hvis. destruct (viewer p) as [c|] eqn:Hc; [|done].
  rewrite (fire_click_item p k img c v) by done. simpl.
  erewrite (fire_click_item _ k img) by done. simpl.
  split_and!; try done.
  - unfold visible. simpl. apply bool_decide_eq_true, elem_of_union_l.
    by apply elem_of_singleton.
  - unfold set_viewer, set_viewerImg, set_src. simpl.
    by rewrite (assoc_L (∪)), (idemp_L (∪)).
Qed.

(** *** The claims at the gallery page *)

Lemma second_click_replaces_then_close_hides_witness :
  wired gallery_ready
  ∧ is_Some (viewer gallery_ready)
  ∧ is_Some (viewerImg gallery_ready)
  ∧ src <$> items gallery_ready !! 0 = Some "a.jpg"
  ∧ src <$> items gallery_ready !! 1 = Some "b.jpg"
  ∧ (let r2 := fire click (item 1) (fire click (item 0) gallery_ready).1 in
     let r3 := fire click close_control r2.1 in
     visible r2.1 = true ∧ displayed r2.1 = Some "b.jpg"
     ∧ visible r3.1 = false ∧ displayed r3.1 = Some "b.jpg").
Proof.
  assert (wired gallery_ready) as Hw by (split; reflexivity).
  assert (is_Some (viewer gallery_ready)) as Hc by (eexists; reflexivity).
  assert (is_Some (viewerImg gallery_ready)) as Hv by (eexists; reflexivity).
  split_and!; [exact Hw | exact Hc | exact Hv | reflexivity | reflexivity |].
  destruct (second_click_replaces_then_close_hides gallery_ready 0 1 _ _
              Hw Hc Hv eq_refl eq_refl)
    as (_ & _ & _ & Hv2 & Hd2 & Hv3 & Hd3 & _).
  simpl. split_and!; [exact Hv2 | exact Hd2 | exact Hv3 | exact Hd3].
Defined.

Lemma click_while_visible_idempotent_witness :
  wired gallery_open
  ∧ is_Some (viewerImg gallery_open)
  ∧ visible gallery_open = true
  ∧ src <$> items gallery_open !! 0 = Some "a.jpg"
  ∧ (let r1 := fire click (item 0) gallery_open in
     visible r1.1 = true ∧ displayed r1.1 = Some "a.jpg"
     ∧ fire click (item 0) r1.1 = r1).
Proof.
  assert (wired gallery_open) as Hw by (split; reflexivity).
  assert (is_Some (viewerImg gallery_open)) as Hv by (eexists; reflexivity).
  assert (visible gallery_open = true) as Hvis by (vm_compute; reflexivity).
  split_and!; [exact Hw | exact Hv | exact Hvis | reflexivity |].
  destruct (click_while_visible_idempotent gallery_open 0 _ Hw Hv Hvis eq_refl)
    as (_ & Hv1 & Hd1 & Hsame).
  simpl. split_and!; [exact Hv1 | exact Hd1 | exact Hsame].
Defined.

End GalleryFacts.

(** * Further properties of main.js *)

Module MainExtra.
Import Main MainFacts.

(** *** showSlide in detail *)

Lemma showSlide_exact z p s :
  (0 ≤ z)%Z → slides p !! Z.to_nat z = Some s →
  showSlide (Num z) p
  = (Normal tt,
     set_tweens (if img s && gsap p then tweens p ++ [Z.to_nat z] else tweens p)
       (set_slides (imap (translateX (Num z)) (slides p)) p)).
Proof.
  intros Hz Hs. unfold showSlide. js_unfold. cbn.
  rewrite decide_True by done. rewrite list_lookup_imap, Hs. simpl.
  by destruct (img s && gsap p).
Qed.

Lemma showSlide_throws i p :
  (∀ n, array_index i = Some n → length (slides p) ≤ n) →
  showSlide i p
  = (Throw TypeError, set_slides (imap (translateX i) (slides p)) p).
Proof.
  intros Hout. unfold showSlide. js_unfold. cbn.
  destruct (array_index i) as [n|]; [|done].
  rewrite list_lookup_imap.
  rewrite (lookup_ge_None_2 (slides p) n) by (by apply Hout). done.
Qed.

Lemma lookup_slide z p :
  (0 ≤ z < slide_count p)%Z → is_Some (slides p !! Z.to_nat z).
Proof. unfold slide_count. intros ?. apply lookup_lt_is_Some. lia. Qed.

(** X1: for a valid index i, showSlide completes normally, keeps the number
    of slides, and leaves slide k at translateX(100 * (k - i) %); slide i is
    the only one at offset 0. *)
Theorem showSlide_layout (p : page) (i : Z) :
  (0 ≤ i < slide_count p)%Z →
  outcome (showSlide (Num i)) p = Normal tt
  ∧ length (slides (exec (showSlide (Num i)) p)) = length (slides p)
  ∧ ∀ (k : nat) (s : element),
      slides (exec (showSlide (Num i)) p) !! k = Some s →
      transform s = Some (100 * (Z.of_nat k - i))%Z
      ∧ (transform s = Some 0%Z ↔ Z.of_nat k = i).
Proof.
  intros Hr. destruct (lookup_slide i p Hr) as [s0 Hs0].
  unfold outcome, exec. rewrite (showSlide_exact i p s0) by (lia || done).
  simpl. split_and!; [done | by rewrite length_imap |].
  intros k s Hk. apply list_lookup_imap_Some in Hk as (s1 & _ & ->).
  simpl. split; [done|]. split.
  - intros [= H]. lia.
  - intros <-. f_equal. lia.
Qed.


(** X2: whether window.gsap is defined changes neither the completion nor
    the layout showSlide produces; without it no tween is started, with it
    one tween is started exactly when the shown slide contains an image. *)
Theorem showSlide_gsap_optional (p : page) (i : Z) (b : bool) :
  (0 ≤ i < slide_count p)%Z →
  outcome (showSlide (Num i)) (set_gsap b p) = Normal tt
  ∧ slides (exec (showSlide (Num i)) (set_gsap b p))
    = slides (exec (showSlide (Num i)) p)
  ∧ tweens (exec (showSlide (Num i)) (set_gsap false p)) = tweens p
  ∧ (∀ s, slides p !! Z.to_nat i = Some s →
       tweens (exec (showSlide (Num i)) (set_gsap true p))
       = if img s then tweens p ++ [Z.to_nat i] else tweens p).
Proof.
  intros Hr. destruct (lookup_slide i p Hr) as [s0 Hs0].
  unfold outcome, exec.
  rewrite (showSlide_exact i p s0) by (lia || done).
  rewrite !(showSlide_exact i (set_gsap _ p) s0) by (lia || done).
  simpl. split_and!; try done.
  - by rewrite andb_false_r.
  - intros s Hs. rewrite Hs0 in Hs. injection Hs as ->.
    by rewrite andb_true_r.
Qed.

Lemma imap_translateX_NaN (l : list element) : imap (translateX NaN) l = l.
Proof.
  rewrite (imap_ext _ (λ _ s, s) l) by done.
  induction l as [|x l IH]; [done|]. simpl. f_equal. apply IH.
Qed.

Lemma set_slides_same p : set_slides (slides p) p = p.
Proof. by destruct p. Qed.


(** X4: on a page with no slides goNext and goPrev set index to NaN (a
    remainder by zero) and throw a TypeError. *)
Theorem goNext_goPrev_without_slides (p : page) :
  slides p = [] →
  goNext p = (Throw TypeError, set_index NaN p)
  ∧ goPrev p = (Throw TypeError, set_index NaN p).
Proof.
  intros Hs.
  assert (∀ v, showSlide NaN (set_index v p) = (Throw TypeError, set_index v p))
    as Hshow.
  { intros v. rewrite showSlide_throws by done.
    by rewrite imap_translateX_NaN, set_slides_same. }
  unfold goNext, goPrev. js_unfold. cbn. rewrite Hs. cbn.
  destruct (index p); cbn; by rewrite Hshow.
Qed.

(** X5: from a valid index, goPrev after goNext and goNext after goPrev both
    complete normally and bring index back to where it was. *)
Theorem goNext_goPrev_inverse (p : page) :
  index_valid p →
  outcome (goNext ;; goPrev) p = Normal tt
  ∧ index (exec (goNext ;; goPrev) p) = index p
  ∧ outcome (goPrev ;; goNext) p = Normal tt
  ∧ index (exec (goPrev ;; goNext) p) = index p.
Proof.
  intros (i & Hi & Hr)%index_valid_alt.
  assert (0 < slide_count p)%Z as HN by lia.
  destruct (goNext_cursor i p Hi Hr) as (p1 & Hrun1 & [= Hi1 Hc1]).
  destruct (goPrev_cursor _ p1 Hi1) as (p2 & Hrun2 & [= Hi2 _]).
  { rewrite Hc1. by apply Z.mod_pos_bound. }
  destruct (goPrev_cursor i p Hi Hr) as (q1 & Hrunq1 & [= Hj1 Hd1]).
  destruct (goNext_cursor _ q1 Hj1) as (q2 & Hrunq2 & [= Hj2 _]).
  { rewrite Hd1. by apply Z.mod_pos_bound. }
  unfold outcome, exec.
  rewrite (bind_normal _ _ _ _ _ Hrun1), Hrun2.
  rewrite (bind_normal _ _ _ _ _ Hrunq1), Hrunq2. simpl.
  rewrite Hi, Hi2, Hj2, Hc1, Hd1. split_and!; try done; f_equal.
  - rewrite <- Z.add_sub_swap, <- Z.add_sub_assoc, Zplus_mod_idemp_l.
    replace (i + 1 + (slide_count p - 1))%Z with (i + 1 * slide_count p)%Z by lia.
    rewrite Z_mod_plus_full. by apply Z.mod_small.
  - rewrite Zplus_mod_idemp_l.
    replace (i - 1 + slide_count p + 1)%Z with (i + 1 * slide_count p)%Z by lia.
    rewrite Z_mod_plus_full. by apply Z.mod_small.
Qed.

Lemma times_goPrev k : ∀ p i,
  index p = Num i → (0 ≤ i < slide_count p)%Z →
  ∃ p', times k goPrev p = (Normal tt, p')
        ∧ cursor p' = (Num ((i - Z.of_nat k) `mod` slide_count p)%Z, slide_count p).
Proof.
  induction k as [|k IH]; intros p i Hi Hr.
  - exists p. split; [done|]. unfold cursor.
    rewrite Z.sub_0_r, Z.mod_small by done. by rewrite Hi.
  - destruct (goPrev_cursor i p Hi Hr) as (p1 & Hrun & [= Hi1 Hc1]).
    destruct (IH p1 _ Hi1) as (p' & Hrest & Hcur).
    { rewrite Hc1. apply Z.mod_pos_bound. lia. }
    exists p'. split.
    + simpl. by rewrite (bind_normal _ _ _ _ _ Hrun).
    + rewrite Hcur, Hc1. rewrite Zminus_mod_idemp_l.
      replace (i - 1 + slide_count p - Z.of_nat k)%Z
        with (i - Z.of_nat (S k) + 1 * slide_count p)%Z by lia.
      by rewrite Z_mod_plus_full.
Qed.

(** X6: from a valid index i, goPrev gives i - 1, or N - 1 from 0; k calls
    give (i - k) mod N and N calls give i again. *)
Theorem goPrev_cycle (p : page) (i : Z) :
  index p = Num i → (0 ≤ i < slide_count p)%Z →
  index (exec goPrev p)
  = Num (if decide (i = 0)%Z then slide_count p - 1 else i - 1)%Z
  ∧ (∀ k : nat,
       outcome (times k goPrev) p = Normal tt
       ∧ index (exec (times k goPrev) p)
         = Num ((i - Z.of_nat k) `mod` slide_count p)%Z)
  ∧ index (exec (times (length (slides p)) goPrev) p) = Num i.
Proof.
  intros Hi Hr.
  assert (∀ k : nat,
       outcome (times k goPrev) p = Normal tt
       ∧ index (exec (times k goPrev) p)
         = Num ((i - Z.of_nat k) `mod` slide_count p)%Z) as Hk.
  { intros k. destruct (times_goPrev k p i Hi Hr) as (p' & Hrun & [= Hi' _]).
    unfold outcome, exec. by rewrite Hrun. }
  split_and!.
  - destruct (goPrev_cursor i p Hi Hr) as (p' & Hrun & [= Hi' _]).
    unfold exec. rewrite Hrun. simpl. rewrite Hi'. f_equal.
    case_decide as Hfirst.
    + subst i. replace (0 - 1 + slide_count p)%Z with (slide_count p - 1)%Z by lia.
      apply Z.mod_small. lia.
    + replace (i - 1 + slide_count p)%Z with (i - 1 + 1 * slide_count p)%Z by lia.
      rewrite Z_mod_plus_full. apply Z.mod_small. lia.
  - apply Hk.
  - destruct (Hk (length (slides p))) as [_ ->]. f_equal.
    fold (slide_count p).
    replace (i - slide_count p)%Z with (i + (-1) * slide_count p)%Z by lia.
    rewrite Z_mod_plus_full. by apply Z.mod_small.
Qed.


(** *** What the slide controller leaves alone *)

Section Blind.
Context {X : Type} (π : page → X) (Hπ : slider_blind π).

Local Ltac blind_step :=
  first
    [ apply frames_ret | apply frames_get | apply frames_throw
    | apply frames_modify; intros ?;
      repeat rewrite ?(blind_slides π Hπ), ?(blind_tweens π Hπ),
        ?(blind_nextBtn π Hπ), ?(blind_prevBtn π Hπ),
        ?(blind_timers π Hπ), ?(blind_timer_seq π Hπ),
        ?(blind_index π Hπ), ?(blind_autoSlideId π Hπ); reflexivity
    | apply frames_bind; [|intros ?] ].
Local Ltac blind := repeat blind_step.

Lemma showSlide_blind i : frames π (showSlide i).
Proof.
  intros p. destruct (showSlide_run i p) as (c & tw & Hrun).
  unfold exec. rewrite Hrun. simpl.
  by rewrite (blind_tweens π Hπ), (blind_slides π Hπ).
Qed.

Lemma goNext_blind : frames π goNext.
Proof.
  unfold goNext. blind_step; [blind_step|]. blind_step; [blind_step|].
  apply showSlide_blind.
Qed.

Lemma goPrev_blind : frames π goPrev.
Proof.
  unfold goPrev. blind_step; [blind_step|]. blind_step; [blind_step|].
  apply showSlide_blind.
Qed.

Lemma stopAutoSlide_blind : frames π stopAutoSlide.
Proof.
  unfold stopAutoSlide, clearInterval. apply frames_bind; [blind|].
  intros q. destruct (autoSlideId q); blind.
Qed.

Lemma startAutoSlide_blind : frames π startAutoSlide.
Proof.
  unfold startAutoSlide, setInterval.
  apply frames_bind; [apply stopAutoSlide_blind|]. intros _. blind.
Qed.

Lemma attachListeners_blind : frames π attachListeners.
Proof. unfold attachListeners. blind. Qed.
End Blind.

Lemma chrome_blind : slider_blind chrome.
Proof. by split. Qed.

Lemma body_blind : slider_blind body.
Proof. by split. Qed.

Lemma timer_seq_blind_show i : frames timer_seq (showSlide i).
Proof.
  intros p. destruct (showSlide_run i p) as (c & tw & Hrun).
  unfold exec. by rewrite Hrun.
Qed.

(** *** The load listener on a page with slides *)

Lemma attachListeners_run p :
  attachListeners p
  = (Normal tt,
     set_slides (with_hover <$> slides p)
       (set_prevBtn (addEventListener click fn_prev_click <$> prevBtn p)
          (set_nextBtn (addEventListener click fn_next_click <$> nextBtn p) p))).
Proof. reflexivity. Qed.

Lemma load_listener_exact p i :
  index p = Num i → (0 ≤ i < slide_count p)%Z →
  load_listener p
  = (Normal tt,
     exec startAutoSlide
       (exec attachListeners
          (exec (showSlide (Num i))
             (set_body (classList_add "loaded" (body p)) p)))).
Proof.
  intros Hi Hr. set (p1 := set_body (classList_add "loaded" (body p)) p).
  destruct (lookup_slide i p1 Hr) as [s Hs].
  unfold load_listener.
  rewrite (bind_normal _ _ p tt p1) by done.
  rewrite (bind_normal get _ p1 p1 p1) by done.
  rewrite decide_False by (unfold slide_count in Hr; simpl; lia).
  change (index p1) with (index p). rewrite Hi.
  pose proof (showSlide_exact i p1 s (proj1 Hr) Hs) as Hshow.
  rewrite (bind_normal _ _ _ _ _ Hshow).
  rewrite (bind_normal _ _ _ _ _ (attachListeners_run _)).
  rewrite startAutoSlide_run. unfold exec.
  by rewrite Hshow, attachListeners_run, startAutoSlide_run.
Qed.

Lemma elem_of_add_listener {F} `{EqDecision F} fresh t (f : F) ls :
  (t, f) ∈ add_listener fresh t f ls.
Proof.
  unfold add_listener. destruct (negb fresh && _) eqn:E.
  - by apply andb_true_iff in E as [_ ?%bool_decide_eq_true].
  - apply elem_of_app. right. by apply list_elem_of_singleton.
Qed.

Lemma add_listener_mono {F} `{EqDecision F} fresh t (f : F) ls x :
  x ∈ ls → x ∈ add_listener fresh t f ls.
Proof.
  intros Hx. unfold add_listener. destruct (negb fresh && _); [done|].
  apply elem_of_app. by left.
Qed.

Lemma elem_of_with_hover s :
  (mouseenter, fn_stopAutoSlide) ∈ listeners (with_hover s)
  ∧ (mouseleave, fn_startAutoSlide) ∈ listeners (with_hover s).
Proof.
  unfold with_hover, addEventListener. simpl. split.
  - apply add_listener_mono, elem_of_add_listener.
  - apply elem_of_add_listener.
Qed.

Lemma frames_cursor_index {A} (m : JS page A) p :
  frames cursor m → index (exec m p) = index p.
Proof. intros Hm. specialize (Hm p). unfold cursor in Hm. by injection Hm. Qed.

Lemma startAutoSlide_dom p :
  slides (exec startAutoSlide p) = slides p
  ∧ nextBtn (exec startAutoSlide p) = nextBtn p
  ∧ prevBtn (exec startAutoSlide p) = prevBtn p.
Proof.
  unfold exec. rewrite startAutoSlide_run. simpl.
  unfold exec. rewrite stopAutoSlide_run. by destruct (autoSlideId p).
Qed.

Lemma showSlide_buttons i p :
  nextBtn (exec (showSlide i) p) = nextBtn p
  ∧ prevBtn (exec (showSlide i) p) = prevBtn p.
Proof.
  destruct (showSlide_run i p) as (c & tw & Hrun).
  unfold exec. by rewrite Hrun.
Qed.

(** X7: on a page with slides, a valid index and the timer invariant, the
    load listener completes normally, marks the body, lays the slides out
    around index, gives every slide its two hover listeners and each button
    present its click listener, and leaves exactly one timer, the one whose
    id it stores in autoSlideId. *)
Theorem load_with_slides (p : page) (i : Z) :
  index p = Num i → (0 ≤ i < slide_count p)%Z → timer_inv p →
  outcome load_listener p = Normal tt
  ∧ "loaded" ∈ classList (body (exec load_listener p))
  ∧ index (exec load_listener p) = Num i
  ∧ timers (exec load_listener p) = {[ timer_seq p := auto_timer ]}
  ∧ autoSlideId (exec load_listener p) = Some (timer_seq p)
  ∧ slides (exec load_listener p)
    = with_hover <$> imap (translateX (Num i)) (slides p)
  ∧ (∀ (k : nat) (s : element),
       slides (exec load_listener p) !! k = Some s →
       transform s = Some (100 * (Z.of_nat k - i))%Z
       ∧ (mouseenter, fn_stopAutoSlide) ∈ listeners s
       ∧ (mouseleave, fn_startAutoSlide) ∈ listeners s)
  ∧ nextBtn (exec load_listener p)
    = addEventListener click fn_next_click <$> nextBtn p
  ∧ prevBtn (exec load_listener p)
    = addEventListener click fn_prev_click <$> prevBtn p.
Proof.
  intros Hi Hr Hinv.
  set (p1 := set_body (classList_add "loaded" (body p)) p).
  destruct (lookup_slide i p1 Hr) as [s0 Hs0].
  pose proof (showSlide_exact i p1 s0 (proj1 Hr) Hs0) as Hshow.
  set (p2 := exec (showSlide (Num i)) p1).
  assert (slides p2 = imap (translateX (Num i)) (slides p)) as Hslides
    by (unfold p2, exec; by rewrite Hshow).
  set (p3 := exec attachListeners p2).
  assert (timer_state p3 = timer_state p) as Hts.
  { unfold p3. rewrite attachListeners_timer_state.
    unfold p2. by rewrite showSlide_timer_state. }
  assert (timer_seq p3 = timer_seq p) as Hseq.
  { unfold p3, p2. change (timer_seq (exec attachListeners ?q)) with (timer_seq q).
    by rewrite timer_seq_blind_show. }
  assert (timer_inv p3) as Hinv3 by (by apply (timer_inv_timer_state p)).
  destruct (startAutoSlide_single p3 Hinv3) as [Ht Ha].
  destruct (startAutoSlide_dom p3) as (Hfinal & Hnext & Hprev).
  change (slides p3) with (with_hover <$> slides p2) in Hfinal.
  destruct (showSlide_buttons (Num i) p1) as [Hn2 Hp2]. fold p2 in Hn2, Hp2.
  unfold outcome, exec at 1 2 3 4 5 6 7 8. rewrite (load_listener_exact p i Hi Hr).
  simpl. fold p1 p2 p3. rewrite Ht, Ha, Hseq, Hfinal, Hslides.
  split_and!; try done.
  - rewrite (startAutoSlide_blind body body_blind).
    unfold p3. rewrite (attachListeners_blind body body_blind).
    unfold p2. rewrite (showSlide_blind body body_blind). simpl.
    apply elem_of_union_l. by apply elem_of_singleton.
  - rewrite (frames_cursor_index _ _ startAutoSlide_cursor). unfold p3.
    rewrite (frames_cursor_index _ _ attachListeners_cursor). unfold p2.
    by rewrite (frames_cursor_index _ _ (showSlide_cursor _)).
  - intros k s Hk. rewrite list_lookup_fmap, list_lookup_imap in Hk.
    destruct (slides p !! k) as [s1|]; [|done]. injection Hk as <-.
    split; [done|]. apply elem_of_with_hover.
  - rewrite Hnext. change (nextBtn p3)
      with (addEventListener click fn_next_click <$> nextBtn p2).
    by rewrite Hn2.
  - rewrite Hprev. change (prevBtn p3)
      with (addEventListener click fn_prev_click <$> prevBtn p2).
    by rewrite Hp2.
Qed.


(** *** Events on a page whose listeners are in place *)

Lemma run_all_single (f : fn) (p : page) :
  run_all call [f] p
  = (exec (call f) p,
     match outcome (call f) p with Normal _ => [] | Throw e => [e] end).
Proof. unfold exec, outcome. simpl. by destruct (call f p) as [[[]|e] p1]. Qed.







(** X10: a tick of an active auto-advance timer reports no error, moves
    index one position forward and leaves the timers as they are; once
    stopAutoSlide has cleared the timer, a tick with its id does nothing. *)
Theorem tick_advances_until_stopped (p : page) (id : nat) (i : Z) :
  timers p !! id = Some auto_timer →
  index p = Num i → (0 ≤ i < slide_count p)%Z →
  (dispatch (Tick id) p).2 = []
  ∧ index (dispatch (Tick id) p).1 = Num ((i + 1) `mod` slide_count p)%Z
  ∧ timers (dispatch (Tick id) p).1 = timers p
  ∧ (autoSlideId p = Some id →
     dispatch (Tick id) (exec stopAutoSlide p) = (exec stopAutoSlide p, [])).
Proof.
  intros Hid Hi Hr. destruct (goNext_run i p Hi Hr) as [tw Hnext].
  unfold dispatch at 1 2 3. rewrite Hid. simpl callback.
  rewrite run_all_single. unfold outcome, exec. simpl call. rewrite Hnext.
  simpl. split_and!; try done.
  intros Ha. unfold dispatch, exec. rewrite stopAutoSlide_run, Ha. simpl.
  by rewrite lookup_delete_eq.
Qed.


(** *** The mobile menu *)

Lemma menu_listener_run p m n :
  menuToggle p = Some m → navLinks p = Some n →
  menu_listener p
  = (Normal tt,
     set_menuToggle (Some (classList_toggle "active" m))
       (set_navLinks (Some (classList_toggle "open" n)) p)).
Proof. intros Hm Hn. unfold menu_listener. js_unfold. by rewrite Hn, Hm. Qed.

Lemma classList_toggle_flips c e :
  c ∈ classList (classList_toggle c e) ↔ c ∉ classList e.
Proof.
  unfold classList_toggle. case_decide as Hc; simpl.
  - split; [|done]. intros [_ Hn]%elem_of_difference.
    exfalso. apply Hn. by apply elem_of_singleton.
  - split; [done|]. intros _. apply elem_of_union_l. by apply elem_of_singleton.
Qed.

Lemma classList_toggle_other c d e :
  d ≠ c → d ∈ classList (classList_toggle c e) ↔ d ∈ classList e.
Proof.
  intros Hd. unfold classList_toggle. case_decide; simpl.
  - rewrite elem_of_difference, elem_of_singleton.
    split; [by intros [? _] | by intros ?].
  - rewrite elem_of_union, elem_of_singleton.
    split; [by intros [?|?] | by right].
Qed.

Lemma toggle_twice_classes (c : string) (cl : gset string) :
  (c ∈ cl → {[ c ]} ∪ cl ∖ {[ c ]} = cl)
  ∧ (c ∉ cl → ({[ c ]} ∪ cl) ∖ {[ c ]} = cl).
Proof.
  split; intros Hc; apply set_eq; intros d;
    rewrite ?elem_of_difference, ?elem_of_union, ?elem_of_difference,
      !elem_of_singleton; destruct (decide (d = c)) as [->|Hd].
  - split; [done | by left].
  - split; [by intros [?|[? _]] | by right].
  - split; [by intros [_ ?] | done].
  - split; [by intros [[?|?] _] | by intros ?; split; [right|]].
Qed.

Lemma classList_toggle_twice c e :
  classList_toggle c (classList_toggle c e) = e.
Proof.
  destruct e as [cl ls tr im].
  destruct (toggle_twice_classes c cl) as [Hin Hout].
  unfold classList_toggle at 2. simpl. case_decide as Hc.
  - unfold classList_toggle. simpl. rewrite decide_False.
    + unfold classList_add, set_classList. simpl. by rewrite (Hin Hc).
    + intros [_ Hn]%elem_of_difference. apply Hn. by apply elem_of_singleton.
  - unfold classList_toggle. simpl. rewrite decide_True.
    + unfold classList_remove, set_classList. simpl. by rewrite (Hout Hc).
    + apply elem_of_union_l. by apply elem_of_singleton.
Qed.

(** X11: with both menu elements present, one run of the menu listener flips
    "active" on the toggle and "open" on the links and touches no other
    class; two runs give back the page exactly as it was. *)
Theorem menu_toggle_twice_restores (p : page) (m n : element) :
  menuToggle p = Some m → navLinks p = Some n →
  (menu_listener ;; menu_listener) p = (Normal tt, p)
  ∧ ∃ m' n',
      menu_listener p
      = (Normal tt, set_menuToggle (Some m') (set_navLinks (Some n') p))
      ∧ ("active" ∈ classList m' ↔ "active" ∉ classList m)
      ∧ ("open" ∈ classList n' ↔ "open" ∉ classList n)
      ∧ (∀ c, c ≠ "active" → c ∈ classList m' ↔ c ∈ classList m)
      ∧ (∀ c, c ≠ "open" → c ∈ classList n' ↔ c ∈ classList n).
Proof.
  intros Hm Hn. split.
  - rewrite (bind_normal _ _ _ _ _ (menu_listener_run p m n Hm Hn)).
    erewrite menu_listener_run by reflexivity.
    rewrite !classList_toggle_twice. f_equal.
    destruct p. simpl in *. by rewrite Hm, Hn.
  - eexists _, _. split; [by apply menu_listener_run|].
    split_and!.
    + apply classList_toggle_flips.
    + apply classList_toggle_flips.
    + intros c Hc. by apply classList_toggle_other.
    + intros c Hc. by apply classList_toggle_other.
Qed.

Lemma main_js_exact p :
  main_js p
  = (Normal tt,
     set_menuToggle
       (match menuToggle p, navLinks p with
        | Some m, Some _ => Some (addEventListener click fn_menu_click m)
        | o, _ => o
        end)
       (set_window_listeners
          (window_listeners p ++ [(load, fn_load); (scroll, fn_scroll)])
          (set_autoSlideId None (set_index (Num 0) p)))).
Proof.
  unfold main_js. js_unfold. simpl. unfold add_listener. simpl.
  rewrite <- app_assoc. simpl.
  destruct p as [? ? ? ? ? [m|] [n|] ? ? ? ? ? ? ? ?]; reflexivity.
Qed.

(** X12: main.js completes normally; on a page whose toggle had no listener,
    a click on the toggle afterwards runs the menu listener when both menu
    elements exist, and does nothing at all when either is missing. *)
Theorem menu_wired_only_when_complete (p : page) :
  (∀ m, menuToggle p = Some m → listeners m = []) →
  outcome main_js p = Normal tt
  ∧ (is_Some (menuToggle p) → is_Some (navLinks p) →
     dispatch (Fire click menu_toggle) (exec main_js p)
     = (exec menu_listener (exec main_js p), []))
  ∧ (menuToggle p = None ∨ navLinks p = None →
     dispatch (Fire click menu_toggle) (exec main_js p)
     = (exec main_js p, [])).
Proof.
  intros Hfresh. unfold outcome.
  assert (exec main_js p = (main_js p).2) as -> by done.
  rewrite main_js_exact. cbn [fst snd].
  split_and!; [done| |].
  - intros [m Hm] [n Hn]. rewrite Hm, Hn.
    unfold dispatch, listeners_of, addEventListener. simpl.
    rewrite (Hfresh m Hm). simpl.
    set (q := set_menuToggle _ _).
    unfold exec. by rewrite (menu_listener_run q _ n eq_refl Hn).
  - destruct (menuToggle p) as [m|] eqn:Hm; [|done].
    intros [?| ->]; [done|].
    unfold dispatch, listeners_of. simpl. by rewrite (Hfresh m eq_refl).
Qed.

(** *** The navbar under scrolling *)

(** X13: with a navbar present, the scroll listener changes only the
    navbar, there only the class "scrolled", and running it twice at the
    same offset is the same as running it once. *)
Theorem scroll_touches_only_scrolled (p : page) (n : element) :
  navbar p = Some n →
  (∃ n', scroll_listener p = (Normal tt, set_navbar (Some n') p)
         ∧ listeners n' = listeners n
         ∧ ∀ c, c ≠ "scrolled" → c ∈ classList n' ↔ c ∈ classList n)
  ∧ (scroll_listener ;; scroll_listener) p = scroll_listener p.
Proof.
  intros Hn. rewrite (bind_normal _ _ _ _ _ (scroll_listener_run p n Hn)).
  erewrite (scroll_listener_run (set_navbar _ p)) by reflexivity.
  rewrite (scroll_listener_run p n Hn). simpl.
  split.
  - eexists. split; [done|]. destruct (Qgtb _ _); simpl; (split; [done|]).
    + intros c Hc. rewrite elem_of_union, elem_of_singleton.
      split; [by intros [?|?] | by right].
    + intros c Hc. rewrite elem_of_difference, elem_of_singleton.
      split; [by intros [? _] | by intros ?].
  - unfold set_navbar at 1 2. simpl. unfold set_navbar. do 3 f_equal.
    destruct (Qgtb _ _); unfold classList_add, classList_remove,
      set_classList; simpl; f_equal.
    + by rewrite (assoc_L (∪)), (idemp_L (∪)).
    + apply set_eq. intros c. rewrite !elem_of_difference.
      split; [by intros [[? ?] _] | by intros [? ?]].
Qed.

(** *** The loaded flag *)

Lemma load_listener_body p :
  body (exec load_listener p) = classList_add "loaded" (body p).
Proof.
  unfold load_listener.
  rewrite (exec_bind _ _ _ tt) by done.
  set (p1 := exec _ p).
  change (classList_add "loaded" (body p)) with (body p1).
  revert p1. apply frames_bind; [apply frames_get|]. intros q.
  destruct (decide _); [apply frames_ret|].
  apply frames_bind; [apply (showSlide_blind body body_blind)|intros _].
  apply frames_bind; [apply (attachListeners_blind body body_blind)|intros _].
  apply (startAutoSlide_blind body body_blind).
Qed.

(** X14: on every page, however the load listener completes, the body ends
    with its classes plus "loaded". *)
Theorem load_always_marks_body (p : page) :
  body (exec load_listener p) = classList_add "loaded" (body p)
  ∧ "loaded" ∈ classList (body (exec load_listener p))
  ∧ ∀ c, c ∈ classList (body p) → c ∈ classList (body (exec load_listener p)).
Proof.
  rewrite load_listener_body. simpl. split_and!; [done| |].
  - apply elem_of_union_l. by apply elem_of_singleton.
  - intros c Hc. by apply elem_of_union_r.
Qed.

(** *** A complete page raises no error *)

Lemma load_listener_chrome : frames chrome load_listener.
Proof.
  unfold load_listener.
  apply frames_bind; [by apply frames_modify|intros _].
  apply frames_bind; [apply frames_get|]. intros q.
  destruct (decide _); [apply frames_ret|].
  apply frames_bind; [apply (showSlide_blind chrome chrome_blind)|intros _].
  apply frames_bind; [apply (attachListeners_blind chrome chrome_blind)|intros _].
  apply (startAutoSlide_blind chrome chrome_blind).
Qed.

Lemma healthy_chrome p p' :
  index_valid p' → chrome p' = chrome p → healthy p → healthy p'.
Proof.
  unfold healthy, chrome. intros Hv [= -> -> ->] (_ & ? & ? & ?). done.
Qed.

Lemma call_healthy f p :
  healthy p → outcome (call f) p = Normal tt ∧ healthy (exec (call f) p).
Proof.
  intros Hh. pose proof Hh as (Hv & [nav Hnav] & [m Hm] & [n Hn]).
  pose proof Hv as (i & Hi & Hr)%index_valid_alt.
  destruct (goNext_index_valid p Hv) as [Hgn Hvn].
  destruct (goPrev_index_valid p Hv) as [Hgp Hvp].
  pose proof (call_index_valid f p Hv) as Hv'.
  destruct f; simpl call in *.
  - split.
    + unfold outcome. by rewrite (load_listener_exact p i Hi Hr).
    + apply (healthy_chrome p); [done | apply load_listener_chrome | done].
  - split.
    + unfold outcome. by rewrite (scroll_listener_run p nav Hnav).
    + revert Hv'. unfold exec. rewrite (scroll_listener_run p nav Hnav).
      intros Hv'. split_and!; simpl; rewrite ?Hm, ?Hn; eauto.
  - split.
    + unfold outcome in *. destruct (goNext p) as [c p1] eqn:Hrun.
      simpl in Hgn. subst c. rewrite (bind_normal _ _ _ _ _ Hrun).
      by rewrite startAutoSlide_run.
    + apply (healthy_chrome p); [done | | done].
      apply frames_bind; [apply (goNext_blind chrome chrome_blind)|intros _].
      apply (startAutoSlide_blind chrome chrome_blind).
  - split.
    + unfold outcome in *. destruct (goPrev p) as [c p1] eqn:Hrun.
      simpl in Hgp. subst c. rewrite (bind_normal _ _ _ _ _ Hrun).
      by rewrite startAutoSlide_run.
    + apply (healthy_chrome p); [done | | done].
      apply frames_bind; [apply (goPrev_blind chrome chrome_blind)|intros _].
      apply (startAutoSlide_blind chrome chrome_blind).
  - split.
    + unfold outcome. by rewrite (menu_listener_run p m n Hm Hn).
    + revert Hv'. unfold exec. rewrite (menu_listener_run p m n Hm Hn).
      intros Hv'. split_and!; simpl; rewrite ?Hnav; eauto.
  - split; [done|].
    apply (healthy_chrome p); [done | apply (goNext_blind chrome chrome_blind) | done].
  - split; [unfold outcome; by rewrite startAutoSlide_run|].
    apply (healthy_chrome p);
      [done | apply (startAutoSlide_blind chrome chrome_blind) | done].
  - split; [unfold outcome; by rewrite stopAutoSlide_run|].
    apply (healthy_chrome p);
      [done | apply (stopAutoSlide_blind chrome chrome_blind) | done].
Qed.

Lemma run_all_healthy fs : ∀ p,
  healthy p → (run_all call fs p).2 = [] ∧ healthy (run_all call fs p).1.
Proof.
  induction fs as [|f fs IH]; intros p Hh; [done|].
  destruct (call_healthy f p Hh) as [Ho Hh1]. unfold outcome, exec in *.
  simpl. destruct (call f p) as [c p1]. simpl in *. subst c.
  destruct (IH p1 Hh1) as [He Hh2]. by destruct (run_all call fs p1).
Qed.

Lemma dispatch_healthy e p :
  healthy p → (dispatch e p).2 = [] ∧ healthy (dispatch e p).1.
Proof.
  intros Hh. destruct e as [t on|y|id]; unfold dispatch.
  - by apply run_all_healthy.
  - by apply run_all_healthy.
  - destruct (timers p !! id); [|done]. by apply run_all_healthy.
Qed.

(** X15: on a page with a valid index, a navbar and both menu elements, no
    run of events (load, scroll, clicks, hover, ticks) reports an error, and
    the page stays such a page. *)
Theorem complete_page_never_errors (p : page) (es : list event) :
  healthy p →
  (run_events es p).2 = [] ∧ healthy (run_events es p).1.
Proof.
  revert p. induction es as [|e es IH]; intros p Hh; [done|].
  destruct (dispatch_healthy e p Hh) as [He Hh1].
  simpl. destruct (dispatch e p) as [p1 errs1]. simpl in *. subst errs1.
  destruct (IH p1 Hh1) as (He2 & Hh2).
  by destruct (run_events es p1) as [p2 errs2].
Qed.

Lemma run_events_timer_inv es : ∀ p,
  timer_inv p → timer_inv (run_events es p).1.
Proof.
  induction es as [|e es IH]; intros p Hinv; [done|].
  pose proof (dispatch_timer_inv e p Hinv) as Hinv1.
  simpl. destruct (dispatch e p) as [p1 errs1]. simpl in *.
  specialize (IH p1 Hinv1). by destruct (run_events es p1).
Qed.

(** X16: after main.js has run on a page with no timer, every run of events
    leaves at most one timer active, the one autoSlideId names, even when
    listeners throw on the way. *)
Theorem one_timer_for_the_life_of_the_page (p : page) (es : list event) :
  timers p = ∅ →
  timer_inv (run_events es (exec main_js p)).1
  ∧ size (timers (run_events es (exec main_js p)).1) ≤ 1.
Proof.
  intros Hempty.
  pose proof (run_events_timer_inv es _ (main_js_timer_inv p Hempty)) as Hinv.
  split; [done | by apply timer_inv_size].
Qed.

(** *** The extras at the pages of the site *)

Lemma showSlide_layout_witness :
  (0 ≤ 1 < slide_count home_html)%Z
  ∧ outcome (showSlide (Num 1)) home_html = Normal tt.
Proof.
  assert (0 ≤ 1 < slide_count home_html)%Z as Hr
    by (unfold slide_count; simpl; lia).
  split; [exact Hr|]. apply (showSlide_layout home_html 1 Hr).
Defined.

Lemma showSlide_gsap_optional_witness :
  (0 ≤ 0 < slide_count home_html)%Z
  ∧ tweens (exec (showSlide (Num 0)) (set_gsap false home_html))
    = tweens home_html.
Proof.
  assert (0 ≤ 0 < slide_count home_html)%Z as Hr
    by (unfold slide_count; simpl; lia).
  split; [exact Hr|]. apply (showSlide_gsap_optional home_html 0 false Hr).
Defined.


Lemma goNext_goPrev_without_slides_witness :
  slides gallery_html = []
  ∧ goNext gallery_html = (Throw TypeError, set_index NaN gallery_html).
Proof.
  split; [reflexivity|].
  apply (goNext_goPrev_without_slides gallery_html). reflexivity.
Defined.

Lemma goNext_goPrev_inverse_witness :
  index_valid home_html
  ∧ index (exec (goNext ;; goPrev) home_html) = index home_html.
Proof.
  assert (index_valid home_html) as Hv
    by (unfold index_valid, slide_count; simpl; lia).
  split; [exact Hv|]. apply (goNext_goPrev_inverse home_html Hv).
Defined.

Lemma goPrev_cycle_witness :
  index home_html = Num 0
  ∧ (0 ≤ 0 < slide_count home_html)%Z
  ∧ index (exec (times 3 goPrev) home_html) = Num 0.
Proof.
  assert (0 ≤ 0 < slide_count home_html)%Z as Hr
    by (unfold slide_count; simpl; lia).
  split; [reflexivity|]. split; [exact Hr|].
  apply (goPrev_cycle home_html 0 eq_refl Hr).
Defined.

Lemma load_with_slides_witness :
  index home_html = Num 0
  ∧ (0 ≤ 0 < slide_count home_html)%Z
  ∧ timer_inv home_html
  ∧ timers (exec load_listener home_html) = {[ 1 := auto_timer ]}.
Proof.
  assert (0 ≤ 0 < slide_count home_html)%Z as Hr
    by (unfold slide_count; simpl; lia).
  split; [reflexivity|]. split; [exact Hr|]. split; [reflexivity|].
  apply (load_with_slides home_html 0 eq_refl Hr eq_refl).
Defined.



Lemma tick_advances_until_stopped_witness :
  timers home_ready !! 1 = Some auto_timer
  ∧ index home_ready = Num 0
  ∧ (0 ≤ 0 < slide_count home_ready)%Z
  ∧ autoSlideId home_ready = Some 1
  ∧ (dispatch (Tick 1) home_ready).2 = []
  ∧ dispatch (Tick 1) (exec stopAutoSlide home_ready)
    = (exec stopAutoSlide home_ready, []).
Proof.
  assert (0 ≤ 0 < slide_count home_ready)%Z as Hr
    by (vm_compute; split; [discriminate | reflexivity]).
  destruct (tick_advances_until_stopped home_ready 1 0 eq_refl eq_refl Hr)
    as (Hi & _ & _ & Hstop).
  split; [reflexivity|]. split; [reflexivity|]. split; [exact Hr|].
  split; [reflexivity|]. split; [exact Hi | exact (Hstop eq_refl)].
Defined.

Lemma menu_toggle_twice_restores_witness :
  is_Some (menuToggle home_html) ∧ is_Some (navLinks home_html)
  ∧ (menu_listener ;; menu_listener) home_html = (Normal tt, home_html).
Proof.
  split; [eexists; reflexivity|]. split; [eexists; reflexivity|].
  apply (menu_toggle_twice_restores home_html _ _ eq_refl eq_refl).
Defined.

Lemma menu_wired_only_when_complete_witness :
  (∀ m, menuToggle home_html = Some m → listeners m = [])
  ∧ outcome main_js home_html = Normal tt.
Proof.
  assert (∀ m, menuToggle home_html = Some m → listeners m = []) as Hfresh
    by (intros m [= <-]; reflexivity).
  split; [exact Hfresh|].
  apply (menu_wired_only_when_complete home_html Hfresh).
Defined.

Lemma scroll_touches_only_scrolled_witness :
  is_Some (navbar home_html)
  ∧ (scroll_listener ;; scroll_listener) home_html = scroll_listener home_html.
Proof.
  split; [eexists; reflexivity|].
  apply (scroll_touches_only_scrolled home_html _ eq_refl).
Defined.

Lemma load_always_marks_body_witness :
  "home" ∈ classList (body (set_body (plain {[ "home" ]} false) home_html))
  ∧ "home" ∈ classList
               (body (exec load_listener
                        (set_body (plain {[ "home" ]} false) home_html))).
Proof.
  assert ("home" ∈ classList
                     (body (set_body (plain {[ "home" ]} false) home_html)))
    as Hc
    by (change ("home" ∈ ({[ "home" ]} : gset string));
        by apply elem_of_singleton).
  split; [exact Hc|].
  destruct (load_always_marks_body
              (set_body (plain {[ "home" ]} false) home_html))
    as (_ & _ & Hkeep).
  exact (Hkeep _ Hc).
Defined.

Lemma complete_page_never_errors_witness :
  healthy home_ready
  ∧ (run_events [Scrolled 120%Q; Fire click next_button; Tick 2;
                 Fire mouseenter (slide 0); Fire click menu_toggle;
                 Fire mouseleave (slide 0); Fire load window] home_ready).2
    = [].
Proof.
  assert (healthy home_ready) as Hh.
  { split; [vm_compute; split; [discriminate | reflexivity]|].
    repeat split; eexists; reflexivity. }
  split; [exact Hh|]. apply (complete_page_never_errors home_ready _ Hh).
Defined.

Lemma one_timer_for_the_life_of_the_page_witness :
  timers home_html = ∅
  ∧ size (timers (run_events [Fire load window; Fire load window;
                              Fire click next_button]
                    (exec main_js home_html)).1) ≤ 1.
Proof.
  split; [reflexivity|].
  apply (one_timer_for_the_life_of_the_page home_html _ eq_refl).
Defined.

End MainExtra.

(** * Further properties of gallery.js *)

Module GalleryExtra.
Import Gallery GalleryFacts.

Lemma gallery_js_items p :
  src <$> items (exec gallery_js p) = src <$> items p
  ∧ length (items (exec gallery_js p)) = length (items p)
  ∧ overlay (exec gallery_js p) = overlay p.
Proof.
  unfold gallery_js. js_unfold. simpl.
  assert (∀ fl : nat → image → list (ev_type * fn),
            src <$> imap (λ k img, set_image_listeners (fl k img) img) (items p)
            = src <$> items p) as Hsrc.
  { intros fl. apply list_eq. intros k.
    rewrite !list_lookup_fmap, list_lookup_imap.
    by destruct (items p !! k). }
  destruct (closeBtn p); simpl; by rewrite Hsrc, length_imap.
Qed.

(** X17: on a page with a close control and no listeners yet, gallery.js
    completes normally, leaves item k with exactly the click listener made
    for it and the close control with its own, and changes neither the
    sources of the items nor the overlay. *)
Theorem gallery_js_wires_fresh_page (p : page) :
  unwired p →
  outcome gallery_js p = Normal tt
  ∧ wired (exec gallery_js p)
  ∧ src <$> items (exec gallery_js p) = src <$> items p
  ∧ viewer (exec gallery_js p) = viewer p
  ∧ viewerImg (exec gallery_js p) = viewerImg p.
Proof.
  intros Hu. destruct (gallery_js_wires p Hu) as [Ho Hw].
  destruct (gallery_js_items p) as (Hs & _ & [= Hv Hi]). done.
Qed.




(** X18: without a close control gallery.js throws a TypeError, but only
    after every item got its click listener; the items keep their sources
    and there is still no close control to fire events on. *)
Theorem gallery_js_without_close_control (p : page) :
  closeBtn p = None →
  outcome gallery_js p = Throw TypeError
  ∧ closeBtn (exec gallery_js p) = None
  ∧ (∀ k img, items p !! k = Some img →
       ∃ img', items (exec gallery_js p) !! k = Some img'
               ∧ src img' = src img
               ∧ (click, fn_item_click k) ∈ image_listeners img')
  ∧ (∀ t, fire t close_control (exec gallery_js p) = (exec gallery_js p, [])).
Proof.
  intros Hc. unfold outcome, exec, gallery_js. js_unfold. simpl.
  rewrite Hc. simpl. split_and!; try done.
  - intros k img Hk. rewrite list_lookup_imap, Hk. simpl.
    eexists. split; [done|]. split; [done|]. simpl.
    unfold add_listener. simpl. apply elem_of_app. right.
    by apply list_elem_of_singleton.
  - intros t. unfold fire, listeners_of. simpl. by rewrite Hc.
Qed.


Lemma set_viewer_same p c : viewer p = Some c → set_viewer (Some c) p = p.
Proof. destruct p. simpl. by intros ->. Qed.

Lemma difference_show_absent (c : gset string) :
  "show" ∉ c → c ∖ {[ "show" ]} = c.
Proof.
  intros Hn. apply set_eq. intros d.
  rewrite elem_of_difference, elem_of_singleton.
  split; [by intros [? _] | intros Hd; split; [done | by intros ->]].
Qed.

(** X20: with the viewer present, the close listener hides the overlay,
    keeps every class other than "show", is the same run twice as once, and
    returns the page unchanged when the overlay was already hidden. *)
Theorem close_is_idempotent (p : page) (c : gset string) :
  viewer p = Some c →
  (close_click_listener ;; close_click_listener) p = close_click_listener p
  ∧ visible (exec close_click_listener p) = false
  ∧ (∀ d, d ≠ "show" →
       d ∈ default ∅ (viewer (exec close_click_listener p)) ↔ d ∈ c)
  ∧ ("show" ∉ c → close_click_listener p = (Normal tt, p)).
Proof.
  intros Hc. pose proof (close_click_listener_run p c Hc) as Hrun.
  rewrite (bind_normal _ _ _ _ _ Hrun).
  erewrite (close_click_listener_run (set_viewer _ p)) by reflexivity.
  unfold exec. rewrite Hrun. simpl. split_and!.
  - unfold set_viewer. simpl. do 3 f_equal. apply difference_show_absent.
    intros [_ Hn]%elem_of_difference. apply Hn. by apply elem_of_singleton.
  - unfold visible. simpl. apply bool_decide_eq_false.
    intros [_ Hn]%elem_of_difference. apply Hn. by apply elem_of_singleton.
  - intros d Hd. rewrite elem_of_difference, elem_of_singleton.
    split; [by intros [? _] | by intros ?].
  - intros Hn. rewrite (difference_show_absent c Hn).
    by rewrite (set_viewer_same p c Hc).
Qed.

(** X21: from a hidden overlay, an item click followed by the close
    listener completes normally and changes only the source of the viewer
    image: the class list of the viewer is back as it was. *)
Theorem open_then_close_restores_classes
    (p : page) (img v : image) (c : gset string) :
  viewer p = Some c → viewerImg p = Some v → "show" ∉ c →
  (item_click_listener img ;; close_click_listener) p
  = (Normal tt, set_viewerImg (Some (set_src (src img) v)) p).
Proof.
  intros Hc Hv Hn.
  rewrite (bind_normal _ _ _ _ _ (item_click_listener_run img p c v Hc Hv)).
  erewrite close_click_listener_run by reflexivity.
  f_equal. unfold set_viewer, set_viewerImg. simpl. f_equal.
  rewrite Hc. f_equal. apply set_eq. intros d.
  rewrite elem_of_difference, elem_of_union, elem_of_singleton.
  split.
  - by intros [[?|?] ?].
  - intros Hd. split; [by right | by intros ->].
Qed.

Lemma call_wiring f p :
  items (exec (call f) p) = items p ∧ closeBtn (exec (call f) p) = closeBtn p.
Proof.
  unfold exec. destruct f as [k|]; simpl.
  - js_unfold. destruct (items p !! k) as [img|]; [|done].
    unfold item_click_listener. js_unfold.
    destruct (viewerImg p); [|done]. simpl. by destruct (viewer p).
  - unfold close_click_listener. js_unfold. by destruct (viewer p).
Qed.

Lemma run_all_wiring fs : ∀ p,
  items (run_all call fs p).1 = items p
  ∧ closeBtn (run_all call fs p).1 = closeBtn p.
Proof.
  induction fs as [|f fs IH]; intros p; [done|].
  destruct (call_wiring f p) as [Hi Hc]. unfold exec in *. simpl.
  destruct (call f p) as [c p1]. simpl in *.
  destruct (IH p1) as [Hi1 Hc1]. destruct (run_all call fs p1). simpl in *.
  by rewrite Hi1, Hc1.
Qed.

(** X22: no event on the gallery page changes the items or the listeners of
    the close control; a wired page stays wired. *)
Theorem events_never_rewire (p : page) (t : ev_type) (on : target) :
  items (fire t on p).1 = items p
  ∧ closeBtn (fire t on p).1 = closeBtn p
  ∧ (wired p → wired (fire t on p).1).
Proof.
  destruct (run_all_wiring (registered t (listeners_of on p)) p) as [Hi Hc].
  unfold fire. split_and!; [done..|].
  unfold wired. by rewrite Hi, Hc.
Qed.

(** X23: on a wired page with the overlay elements present, after clicks on
    any run of items and then on item k, no error was reported, the overlay
    is visible and shows the source of item k. *)
Theorem last_click_wins (p : page) (ks : list nat) (k : nat) (img : image) :
  wired p → is_Some (viewer p) → is_Some (viewerImg p) →
  Forall (λ j, j < length (items p)) ks →
  items p !! k = Some img →
  (click_items (ks ++ [k]) p).2 = []
  ∧ visible (click_items (ks ++ [k]) p).1 = true
  ∧ displayed (click_items (ks ++ [k]) p).1 = Some (src img).
Proof.
  revert p. induction ks as [|j ks IH]; intros p Hw [c Hc] [v Hv] Hks Hk.
  - simpl. rewrite (fire_click_item p k img c v) by done. simpl.
    split_and!; [done| |done]. unfold visible. simpl.
    apply bool_decide_eq_true, elem_of_union_l. by apply elem_of_singleton.
  - destruct (Forall_cons_1 _ _ _ Hks) as [Hj Hks'].
    destruct (lookup_lt_is_Some_2 (items p) j Hj) as [imgj Hij].
    simpl. rewrite (fire_click_item p j imgj c v) by done.
    set (p1 := set_viewer _ _).
    destruct (IH p1) as (He & Hvis & Hd); try done; try by eexists.
    destruct (click_items (ks ++ [k]) p1). simpl in *. by subst.
Qed.

(** *** The extras at the gallery page *)

Lemma gallery_js_wires_fresh_page_witness :
  unwired gallery_html
  ∧ outcome gallery_js gallery_html = Normal tt
  ∧ wired (exec gallery_js gallery_html).
Proof.
  assert (unwired gallery_html) as Hu by (split; reflexivity).
  destruct (gallery_js_wires_fresh_page gallery_html Hu) as (Ho & Hw & _).
  split; [exact Hu|]. split; [exact Ho | exact Hw].
Defined.

Lemma gallery_js_without_close_control_witness :
  closeBtn gallery_no_close = None
  ∧ outcome gallery_js gallery_no_close = Throw TypeError.
Proof.
  split; [reflexivity|].
  exact (proj1 (gallery_js_without_close_control gallery_no_close eq_refl)).
Defined.


Lemma close_is_idempotent_witness :
  viewer gallery_ready = Some {[ "viewer" ]}
  ∧ ("show" ∉ default (∅ : gset string) (viewer gallery_ready))
  ∧ close_click_listener gallery_ready = (Normal tt, gallery_ready).
Proof.
  assert (Hn : "show" ∉ default (∅ : gset string) (viewer gallery_ready))
    by (change (¬ ("show" ∈ ({[ "viewer" ]} : gset string)));
        intros H%elem_of_singleton; discriminate).
  split; [reflexivity|]. split; [exact Hn|].
  destruct (close_is_idempotent gallery_ready _ eq_refl) as (_ & _ & _ & Hnoop).
  exact (Hnoop Hn).
Defined.

Lemma open_then_close_restores_classes_witness :
  viewer gallery_ready = Some {[ "viewer" ]}
  ∧ is_Some (viewerImg gallery_ready)
  ∧ ("show" ∉ default (∅ : gset string) (viewer gallery_ready))
  ∧ outcome (item_click_listener {| src := "a.jpg"; image_listeners := [] |} ;;
             close_click_listener) gallery_ready
    = Normal tt.
Proof.
  assert (Hn : "show" ∉ default (∅ : gset string) (viewer gallery_ready))
    by (change (¬ ("show" ∈ ({[ "viewer" ]} : gset string)));
        intros H%elem_of_singleton; discriminate).
  split; [reflexivity|]. split; [eexists; reflexivity|]. split; [exact Hn|].
  unfold outcome.
  by rewrite (open_then_close_restores_classes gallery_ready _ _ _
                eq_refl eq_refl Hn).
Defined.

Lemma events_never_rewire_witness :
  wired gallery_ready ∧ wired (fire click (item 0) gallery_ready).1.
Proof.
  assert (wired gallery_ready) as Hw by (split; reflexivity).
  split; [exact Hw|].
  destruct (events_never_rewire gallery_ready click (item 0)) as (_ & _ & H).
  exact (H Hw).
Defined.

Lemma last_click_wins_witness :
  wired gallery_ready
  ∧ is_Some (viewer gallery_ready) ∧ is_Some (viewerImg gallery_ready)
  ∧ Forall (λ j, j < length (items gallery_ready)) [0; 2]
  ∧ src <$> items gallery_ready !! 1 = Some "b.jpg"
  ∧ displayed (click_items ([0; 2] ++ [1]) gallery_ready).1 = Some "b.jpg".
Proof.
  assert (wired gallery_ready) as Hw by (split; reflexivity).
  assert (is_Some (viewer gallery_ready)) as Hc by (eexists; reflexivity).
  assert (is_Some (viewerImg gallery_ready)) as Hv by (eexists; reflexivity).
  assert (Forall (λ j, j < length (items gallery_ready)) [0; 2]) as Hks
    by (repeat constructor).
  split; [exact Hw|]. split; [exact Hc|]. split; [exact Hv|].
  split; [exact Hks|]. split; [reflexivity|].
  destruct (last_click_wins gallery_ready [0; 2] 1 _ Hw Hc Hv Hks eq_refl)
    as (_ & _ & Hd).
  exact Hd.
Defined.

End GalleryExtra.
